(** * Language identifier (JNI): a shallow embedding of
      [app/src/main/cpp/language_id_l2c_jni.cpp]

    The four native entry points of [LanguageIdentifier] are embedded as
    functions in a small state monad over the observable world (the Android
    log and the UTF buffers handed out by the JNI environment).  C++ values
    are modelled as the code has them: [char] as an 8-bit [ascii] with the
    target's signedness, [std::string] as [string], [int] as a 32-bit
    two's-complement integer in [Z], [double] as an IEEE 754 binary64 value
    ([spec_float] with precision 53 and maximal exponent 1024). *)

From Stdlib Require Import ZArith Lia List Bool Ascii String.
From Stdlib Require Import Floats.SpecFloat.
Import ListNotations.

Local Open Scope string_scope.
Local Open Scope bool_scope.
Local Open Scope Z_scope.

(* ================================================================== *)
(** * C and C++ values *)
(* ================================================================== *)

(** The types and library functions the source uses from the language and
    its standard library (<string>, <algorithm>, <ctype.h>), after their
    documented behaviour. *)

Module Cxx.

(** [char] is one byte.  Whether it is signed is the target's choice
    (signed on x86, unsigned on ARM); the model takes it as a parameter. *)
Definition char_value (char_is_signed : bool) (c : ascii) : Z :=
  let u := Z.of_N (N_of_ascii c) in
  if char_is_signed && (128 <=? u) then u - 256 else u.

(** Conversion of an [int] back to [char]: the low eight bits. *)
Definition char_of_int (z : Z) : ascii :=
  ascii_of_N (Z.to_N (z mod 256)).

(** [::tolower] of <ctype.h> in the "C" locale (the only one of the
    platform's libc): the letters 'A'..'Z' go to 'a'..'z', every other
    value, negative ones included, is returned as it is. *)
Definition tolower (c : Z) : Z :=
  if (65 <=? c) && (c <=? 90) then c + 32 else c.

(** [std::transform(s.begin(), s.end(), s.begin(), f)] with [f : int -> int]:
    every [char] is promoted to [int], mapped, and stored back as a [char]. *)
Fixpoint transform (char_is_signed : bool) (f : Z -> Z) (s : string) : string :=
  match s with
  | EmptyString => EmptyString
  | String c s' =>
      String (char_of_int (f (char_value char_is_signed c)))
             (transform char_is_signed f s')
  end.

(** [std::string(const char* p)]: the bytes of [p] before the first NUL. *)
Fixpoint string_of_c_str (p : string) : string :=
  match p with
  | EmptyString => EmptyString
  | String c p' =>
      if Ascii.eqb c zero then EmptyString else String c (string_of_c_str p')
  end.

(** [std::string::npos], the result of a failed search, and the positions
    a search returns: [Some i] for the offset [i], [None] for [npos]. *)
Definition size_type := option nat.
Definition npos : size_type := None.

Definition size_ne (a b : size_type) : bool :=
  match a, b with
  | Some i, Some j => negb (Nat.eqb i j)
  | None, None => false
  | _, _ => true
  end.

(** [s.find(needle)] from offset [pos] on: the first offset at which
    [needle] starts. *)
Fixpoint find_from (needle s : string) (pos : nat) : size_type :=
  if prefix needle s then Some pos
  else match s with
       | EmptyString => npos
       | String _ s' => find_from needle s' (S pos)
       end.

Definition find (s needle : string) : size_type := find_from needle s 0.

(** [int]: 32 bits, two's complement.  Signed overflow is undefined in C++;
    the model wraps, as the supported targets do. *)
Definition int_wrap (z : Z) : Z := (z + 2 ^ 31) mod 2 ^ 32 - 2 ^ 31.

(** [double]: IEEE 754 binary64. *)
Definition double := spec_float.
Definition prec : Z := 53.
Definition emax : Z := 1024.

(** Conversion of an integer ([int] or [size_t]) to [double], rounding to
    nearest even when the integer has more than 53 significant bits. *)
Definition double_of_Z (z : Z) : double := binary_normalize prec emax z 0 false.

Definition double_mul (x y : double) : double := SFmul prec emax x y.

Definition double_gt (x y : double) : bool := SFltb y x.

(** The literal [0.1]: the binary64 value nearest to one tenth,
    [7205759403792794 * 2^-56] (bit pattern 0x3FB999999999999A). *)
Definition double_0_1 : double := S754_finite false 7205759403792794 (-56).

End Cxx.

Import Cxx.

(* ================================================================== *)
(** * The JNI environment and the Android log *)
(* ================================================================== *)

(** <jni.h> and <android/log.h> belong to the platform, not to the source:
    they are modelled after their documented behaviour, as far as the entry
    points use them. *)

Module Jni.

(** [jlong]: the handle is a caller-chosen 64-bit integer. *)
Definition jlong := Z.

(** [jstring]: a reference to a [java.lang.String], or the null reference.
    A Java string is represented by its modified UTF-8 bytes, the form in
    which [GetStringUTFChars] and [NewStringUTF] exchange it. *)
Definition jstring := option string.
Definition nullptr {A : Type} : option A := None.

(** <android/log.h> *)
Inductive android_LogPriority := ANDROID_LOG_INFO | ANDROID_LOG_ERROR.

(** An argument of a printf-style log call: [%s] or [%lld]. *)
Inductive LogArg :=
| ArgString (s : string)
| ArgLongLong (v : Z).

Record LogRecord := {
  log_priority : android_LogPriority;
  log_tag : string;
  log_format : string;
  log_args : list LogArg
}.

(** What the entry points can change outside their own locals: the log,
    and the number of UTF buffers obtained from the environment and not yet
    given back. *)
Record World := {
  logcat : list LogRecord;
  utf_buffers : nat
}.

(** The environment [JNIEnv *env].  [GetStringUTFChars] reports failure (it
    could not allocate the copy) by a null pointer; which strings fail is
    up to the virtual machine. *)
Record JNIEnv := {
  utf_copy_fails : string -> bool
}.

(** State monad over the world. *)
Definition M (A : Type) : Type := World -> A * World.

Definition ret {A : Type} (a : A) : M A := fun w => (a, w).

Definition bind {A B : Type} (m : M A) (k : A -> M B) : M B :=
  fun w => let (a, w') := m w in k a w'.

Definition result {A : Type} (r : A * World) : A := fst r.
Definition world_after {A : Type} (r : A * World) : World := snd r.

End Jni.

Import Jni.

Notation "x <- m ;; k" := (bind m (fun x => k))
  (at level 61, m at next level, right associativity).
Notation "m ;;; k" := (bind m (fun _ => k))
  (at level 61, right associativity).

Module JniCalls.

(** [__android_log_print(prio, tag, fmt, ...)]: appends one record.  Its
    return value is not used by the code. *)
Definition __android_log_print (prio : android_LogPriority) (tag fmt : string)
    (args : list LogArg) : M unit :=
  fun w =>
    (tt, {| logcat := (logcat w ++ [ {| log_priority := prio; log_tag := tag;
                                        log_format := fmt; log_args := args |} ])%list;
            utf_buffers := utf_buffers w |}).

(** The bytes [env->GetStringUTFChars(s, nullptr)] points to.  The pointer
    is null when the copy cannot be made, and also for the null reference:
    the runtime answers it with a null pointer, which [nativeInitialize],
    having no test of its own on [modelPath], relies on. *)
Definition utf_chars (env : JNIEnv) (s : jstring) : option string :=
  match s with
  | None => nullptr
  | Some bytes => if utf_copy_fails env bytes then nullptr else Some bytes
  end.

Definition GetStringUTFChars (env : JNIEnv) (s : jstring) : M (option string) :=
  fun w =>
    match utf_chars env s with
    | None => (nullptr, w)
    | Some p => (Some p, {| logcat := logcat w; utf_buffers := S (utf_buffers w) |})
    end.

Definition ReleaseStringUTFChars (env : JNIEnv) (s : jstring) (p : string) : M unit :=
  fun w => (tt, {| logcat := logcat w; utf_buffers := Nat.pred (utf_buffers w) |}).

(** [env->NewStringUTF(bytes)]: the Java string of a NUL-terminated buffer. *)
Definition NewStringUTF (env : JNIEnv) (bytes : string) : M jstring :=
  ret (Some (string_of_c_str bytes)).

End JniCalls.

Import JniCalls.

(* ================================================================== *)
(** * language_id_l2c_jni.cpp *)
(* ================================================================== *)

Module LanguageId.

Definition LOG_TAG : string := "LanguageIdJNI".

Definition LOGI (fmt : string) (args : list LogArg) : M unit :=
  __android_log_print ANDROID_LOG_INFO LOG_TAG fmt args.

Definition LOGE (fmt : string) (args : list LogArg) : M unit :=
  __android_log_print ANDROID_LOG_ERROR LOG_TAG fmt args.

Section Native.

(** The target's [char] signedness and the JNI environment of the call. *)
Variable char_is_signed : bool.
Variable env : JNIEnv.

(** ** nativeInitialize *)
Definition Java_com_example_app_language_LanguageIdentifier_nativeInitialize
    (modelPath : jstring) : M jstring :=
  path <- GetStringUTFChars env modelPath ;;
  match path with
  | None => NewStringUTF env ""
  | Some path =>
      LOGI "Initializing with model path: %s" [ArgString (string_of_c_str path)] ;;;
      ReleaseStringUTFChars env modelPath path ;;;
      NewStringUTF env "1.2.0"
  end.

(** ** nativeDetectLanguage *)

(** [textStr.find(kw) != std::string::npos] *)
Definition found (textStr kw : string) : bool :=
  size_ne (find textStr kw) npos.

(** Lines 74 and 81-137: [result] after the chain of keyword tests. *)
Definition keyword_result (textStr : string) : string :=
  let result := "en" in
  if found textStr " el " ||
     found textStr " la " ||
     found textStr " de " ||
     found textStr " que " ||
     found textStr " es " ||
     found textStr " con " ||
     found textStr " y " ||
     found textStr " en " ||
     found textStr " un " ||
     found textStr " una "
  then "es"
  else if found textStr " le " ||
          found textStr " la " ||
          found textStr " et " ||
          found textStr " ce " ||
          found textStr " qui " ||
          found textStr " avec " ||
          found textStr " est " ||
          found textStr " dans " ||
          found textStr " pour " ||
          found textStr " un "
  then "fr"
  else if found textStr " und " ||
          found textStr " der " ||
          found textStr " die " ||
          found textStr " das " ||
          found textStr " mit " ||
          found textStr " ist " ||
          found textStr " ein " ||
          found textStr " eine " ||
          found textStr " auf " ||
          found textStr " von "
  then "de"
  else if found textStr " il " ||
          found textStr " che " ||
          found textStr " con " ||
          found textStr " per " ||
          found textStr " sono " ||
          found textStr " e " ||
          found textStr " in " ||
          found textStr " un " ||
          found textStr " una " ||
          found textStr " non "
  then "it"
  else if found textStr " o " ||
          found textStr " a " ||
          found textStr " que " ||
          found textStr " para " ||
          found textStr " com " ||
          found textStr " e " ||
          found textStr " em " ||
          found textStr " um " ||
          found textStr " uma " ||
          found textStr " de "
  then "pt"
  else result.

(** Lines 140-145: the loop [for (char c : textStr) if (c < 0 || c > 127)
    accentCount++;], started from [accentCount]. *)
Fixpoint count_accents (textStr : string) (accentCount : Z) : Z :=
  match textStr with
  | EmptyString => accentCount
  | String c rest =>
      count_accents rest
        (if (char_value char_is_signed c <? 0) || (127 <? char_value char_is_signed c)
         then int_wrap (accentCount + 1)
         else accentCount)
  end.

(** Line 149: [accentCount > textStr.length() * 0.1], both sides converted
    to [double]. *)
Definition accent_threshold_exceeded (accentCount : Z) (length : nat) : bool :=
  double_gt (double_of_Z accentCount)
            (double_mul (double_of_Z (Z.of_nat length)) double_0_1).

(** Lines 73-151: the classification of the bytes of the text. *)
Definition classify (nativeText : string) : string :=
  let textStr := string_of_c_str nativeText in
  let textStr := transform char_is_signed tolower textStr in
  let result := keyword_result textStr in
  let accentCount := count_accents textStr 0 in
  if accent_threshold_exceeded accentCount (String.length textStr)
     && String.eqb result "en"
  then "mul"
  else result.

Definition Java_com_example_app_language_LanguageIdentifier_nativeDetectLanguage
    (handle : jlong) (text : jstring) : M jstring :=
  match text with
  | None => NewStringUTF env "und"
  | Some _ =>
      nativeText <- GetStringUTFChars env text ;;
      match nativeText with
      | None => NewStringUTF env "und"
      | Some nativeText =>
          LOGI "Detecting language for text: %s"
               [ArgString (string_of_c_str nativeText)] ;;;
          let result := classify nativeText in
          ReleaseStringUTFChars env text nativeText ;;;
          NewStringUTF env result
      end
  end.

(** ** nativeRelease *)
Definition Java_com_example_app_language_LanguageIdentifier_nativeRelease
    (handle : jlong) : M unit :=
  if negb (handle =? 0)
  then LOGI "Language identifier resources cleaned up for handle: %lld (Placeholder - no specific resources allocated)"
            [ArgLongLong handle]
  else ret tt.

(** ** nativeGetVersion *)
Definition Java_com_example_app_language_LanguageIdentifier_nativeGetVersion
    : M jstring :=
  NewStringUTF env "1.2.0".

End Native.

(** The operations under the names the specification uses. *)
Abbreviation initialize := Java_com_example_app_language_LanguageIdentifier_nativeInitialize.
Abbreviation detect := Java_com_example_app_language_LanguageIdentifier_nativeDetectLanguage.
Abbreviation release := Java_com_example_app_language_LanguageIdentifier_nativeRelease.
Abbreviation getVersion := Java_com_example_app_language_LanguageIdentifier_nativeGetVersion.

End LanguageId.

Import LanguageId.

(* ================================================================== *)
(** * The vocabulary of the specification *)
(* ================================================================== *)

Module Spec.

(** [needle] occurs in [s] as a substring. *)
Definition occurs (needle s : string) : Prop :=
  exists pre post : string, s = pre ++ needle ++ post.

(** The pattern of a keyword: the keyword between two single spaces. *)
Definition delimited (kw : string) : string := " " ++ kw ++ " ".

Definition keyword_matches (txt kw : string) : Prop :=
  occurs (delimited kw) txt.

Definition language_matches (txt : string) (kws : list string) : Prop :=
  Exists (keyword_matches txt) kws.

(** KeywordSet: the ordered table of (language code, keywords), in the
    priority order Spanish, French, German, Italian, Portuguese. *)
Definition KeywordSet : list (string * list string) :=
  [ ("es", ["el"; "la"; "de"; "que"; "es"; "con"; "y"; "en"; "un"; "una"]);
    ("fr", ["le"; "la"; "et"; "ce"; "qui"; "avec"; "est"; "dans"; "pour"; "un"]);
    ("de", ["und"; "der"; "die"; "das"; "mit"; "ist"; "ein"; "eine"; "auf"; "von"]);
    ("it", ["il"; "che"; "con"; "per"; "sono"; "e"; "in"; "un"; "una"; "non"]);
    ("pt", ["o"; "a"; "que"; "para"; "com"; "e"; "em"; "um"; "uma"; "de"]) ].

(** The table-driven reading of the cascade: a single loop over the table,
    the first language with any matching keyword wins and the rest of the
    table is not looked at. *)
Fixpoint first_match (table : list (string * list string)) (txt : string)
  : option string :=
  match table with
  | [] => None
  | (code, kws) :: rest =>
      if existsb (fun kw => found txt (delimited kw)) kws
      then Some code
      else first_match rest txt
  end.

(** [code] is the first language of [table], in table order, one of whose
    keywords matches [txt]. *)
Definition first_in_priority (table : list (string * list string))
    (txt code : string) : Prop :=
  exists (before : list (string * list string)) (kws : list string)
         (after : list (string * list string)),
    table = (before ++ (code, kws) :: after)%list /\
    language_matches txt kws /\
    Forall (fun entry => ~ language_matches txt (snd entry)) before.

(** No keyword of any language matches. *)
Definition keyword_free (txt : string) : Prop :=
  Forall (fun entry => ~ language_matches txt (snd entry)) KeywordSet.

(** The number of code units outside the range 0..127. *)
Fixpoint non_ascii_count (s : string) : nat :=
  match s with
  | EmptyString => O
  | String c rest =>
      ((if (127 <? N_of_ascii c)%N then 1 else 0) + non_ascii_count rest)%nat
  end.

(** The text the rules look at: the bytes of the C string, lower-cased. *)
Definition normalized (char_is_signed : bool) (nativeText : string) : string :=
  transform char_is_signed tolower (string_of_c_str nativeText).

(** The text reaches the native code: the reference is not null and the
    environment delivers its bytes. *)
Definition delivers (env : JNIEnv) (text : jstring) (nativeText : string) : Prop :=
  utf_chars env text = Some nativeText.

(** Two characters that differ at most in the case of an ASCII letter. *)
Definition upper_lower (u l : ascii) : Prop :=
  (65 <= N_of_ascii u <= 90)%N /\ N_of_ascii l = (N_of_ascii u + 32)%N.

Definition same_letter (c c' : ascii) : Prop :=
  c = c' \/ upper_lower c c' \/ upper_lower c' c.

(** Two texts that differ only in the case of ASCII letters. *)
Inductive case_variant : string -> string -> Prop :=
| cv_nil : case_variant EmptyString EmptyString
| cv_cons c c' s s' :
    same_letter c c' -> case_variant s s' ->
    case_variant (String c s) (String c' s').

(** The language codes [detect] can give to a text that reached it. *)
Definition classified_codes : list string :=
  ["es"; "fr"; "de"; "it"; "pt"; "en"; "mul"].

End Spec.

Import Spec.

(* ================================================================== *)
(** * Sample environments, worlds and texts *)
(* ================================================================== *)

Module Samples.

(** An environment that always delivers the bytes of a string. *)
Definition env_delivering : JNIEnv := {| utf_copy_fails := fun _ => false |}.

(** An environment that can never make the copy. *)
Definition env_exhausted : JNIEnv := {| utf_copy_fails := fun _ => true |}.

Definition world_empty : World := {| logcat := []; utf_buffers := 0 |}.

(** [n] copies of the string [s], one after the other. *)
Fixpoint replicate (n : nat) (s : string) : string :=
  match n with
  | O => EmptyString
  | S n' => s ++ replicate n' s
  end.

(** U+00E9, e with acute accent, in (modified) UTF-8: the bytes C3 A9. *)
Definition e_acute : string :=
  String (ascii_of_nat 195) (String (ascii_of_nat 169) EmptyString).

(** U+20AC, the euro sign, in (modified) UTF-8: the bytes E2 82 AC. *)
Definition euro_sign : string :=
  String (ascii_of_nat 226)
    (String (ascii_of_nat 130) (String (ascii_of_nat 172) EmptyString)).

(** A Java string of 715827883 euro signs: 2147483649 bytes, one more than
    [2^31], every one of them outside ASCII. *)
Definition overlong_accented : string :=
  replicate (Z.to_nat 715827883) euro_sign.

End Samples.

Import Samples.

(* ================================================================== *)
(** * Classes of texts and sequences of calls *)
(* ================================================================== *)

Module TextClasses.

(** The keyword tests of the chain that can decide: a test repeated from an
    earlier branch (" la " and " un " under French, " con ", " un " and
    " una " under Italian, " que ", " e " and " de " under Portuguese) is
    left out. *)
Definition DecidingKeywords : list (string * list string) :=
  [ ("es", ["el"; "la"; "de"; "que"; "es"; "con"; "y"; "en"; "un"; "una"]);
    ("fr", ["le"; "et"; "ce"; "qui"; "avec"; "est"; "dans"; "pour"]);
    ("de", ["und"; "der"; "die"; "das"; "mit"; "ist"; "ein"; "eine"; "auf"; "von"]);
    ("it", ["il"; "che"; "per"; "sono"; "e"; "in"; "non"]);
    ("pt", ["o"; "a"; "para"; "com"; "em"; "um"; "uma"]) ].

(** The place of a result in the order of the chain: the five languages in
    the order of their branches, then the two results of the fall-through. *)
Definition priority_rank (code : string) : nat :=
  if String.eqb code "es" then 0
  else if String.eqb code "fr" then 1
  else if String.eqb code "de" then 2
  else if String.eqb code "it" then 3
  else if String.eqb code "pt" then 4
  else 5.

(** A buffer without a NUL byte: the C string is the whole buffer. *)
Definition nul_free (s : string) : Prop := string_of_c_str s = s.

(** 'A'..'Z' and 'a'..'z'. *)
Definition ascii_letter (c : ascii) : bool :=
  (((65 <=? N_of_ascii c) && (N_of_ascii c <=? 90)) ||
   ((97 <=? N_of_ascii c) && (N_of_ascii c <=? 122)))%N.

(** No byte of the text is an ASCII letter. *)
Fixpoint no_letter (s : string) : bool :=
  match s with
  | EmptyString => true
  | String c rest => negb (ascii_letter c) && no_letter rest
  end.

End TextClasses.

Import TextClasses.

Module Session.

(** A call of one of the four native methods, as the Java class makes it. *)
Inductive Call :=
| CallInitialize (modelPath : jstring)
| CallDetect (handle : jlong) (text : jstring)
| CallRelease (handle : jlong)
| CallGetVersion.

(** What a call hands back: a [jstring], or nothing for the [void] method. *)
Inductive Outcome :=
| Returned (s : jstring)
| ReturnedVoid.

Definition run_call (char_is_signed : bool) (env : JNIEnv) (c : Call) : M Outcome :=
  match c with
  | CallInitialize modelPath =>
      s <- initialize env modelPath ;; ret (Returned s)
  | CallDetect handle text =>
      s <- detect char_is_signed env handle text ;; ret (Returned s)
  | CallRelease handle =>
      release handle ;;; ret ReturnedVoid
  | CallGetVersion =>
      s <- getVersion env ;; ret (Returned s)
  end.

(** The calls of a list, one after the other in the same world. *)
Fixpoint run_calls (char_is_signed : bool) (env : JNIEnv) (cs : list Call)
  : M (list Outcome) :=
  match cs with
  | [] => ret []
  | c :: rest =>
      o <- run_call char_is_signed env c ;;
      os <- run_calls char_is_signed env rest ;;
      ret (o :: os)
  end.

(** A record as the macro [LOGI] writes it. *)
Definition info_record (r : LogRecord) : Prop :=
  log_priority r = ANDROID_LOG_INFO /\ log_tag r = LOG_TAG.

End Session.

Import Session.

(* ================================================================== *)
(** * The state monad *)
(* ================================================================== *)

Module MonadFacts.

Lemma bind_ret_l {A B : Type} (a : A) (k : A -> M B) (w : World) :
  bind (ret a) k w = k a w.
Proof. reflexivity. Qed.

Lemma bind_ret_r {A : Type} (m : M A) (w : World) :
  bind m ret w = m w.
Proof. unfold bind, ret. now destruct (m w). Qed.

Lemma bind_assoc {A B C : Type} (m : M A) (k : A -> M B) (k' : B -> M C)
    (w : World) :
  bind (bind m k) k' w = bind m (fun a => bind (k a) k') w.
Proof. unfold bind. now destruct (m w). Qed.

(** A successful [GetStringUTFChars] followed by [ReleaseStringUTFChars]
    leaves as many buffers out as before. *)
Lemma get_release_balanced (env : JNIEnv) (s : jstring) (p : string) (w : World) :
  utf_chars env s = Some p ->
  world_after (bind (GetStringUTFChars env s)
                    (fun _ => ReleaseStringUTFChars env s p) w) = w.
Proof.
  intros H. unfold bind, GetStringUTFChars, ReleaseStringUTFChars.
  rewrite H. now destruct w.
Qed.

End MonadFacts.

Import MonadFacts.

(** Unfolds an entry point down to the calls of the environment. *)
Ltac run_native :=
  unfold Java_com_example_app_language_LanguageIdentifier_nativeInitialize,
         Java_com_example_app_language_LanguageIdentifier_nativeDetectLanguage,
         Java_com_example_app_language_LanguageIdentifier_nativeRelease,
         Java_com_example_app_language_LanguageIdentifier_nativeGetVersion,
         bind, GetStringUTFChars.

(* ================================================================== *)
(** * Facts about strings and substring search *)
(* ================================================================== *)

Module StringFacts.

Lemma append_assoc (a b c : string) : (a ++ b) ++ c = a ++ (b ++ c).
Proof. induction a as [ | x a IH ]; simpl; [reflexivity | now rewrite IH]. Qed.

Lemma prefix_iff (p s : string) :
  prefix p s = true <-> exists r, s = p ++ r.
Proof.
  revert s. induction p as [ | a p IH ]; intros s.
  - split; [intros _; exists s; reflexivity | intros _; destruct s; reflexivity].
  - destruct s as [ | b s ]; simpl.
    + split; [discriminate | intros [r Hr]; discriminate].
    + destruct (ascii_dec a b) as [-> | Hab].
      * rewrite IH. split; intros [r Hr]; exists r.
        -- now rewrite Hr.
        -- now injection Hr.
      * split; [discriminate | intros [r Hr]; injection Hr; intros; congruence].
Qed.

Lemma occurs_empty (k : string) : occurs k "" <-> prefix k "" = true.
Proof.
  rewrite prefix_iff. split.
  - intros (pre & post & H). destruct pre; [ | discriminate]. now exists post.
  - intros (r & H). now exists "", r.
Qed.

Lemma occurs_cons (k : string) (c : ascii) (s : string) :
  occurs k (String c s) <-> prefix k (String c s) = true \/ occurs k s.
Proof.
  rewrite prefix_iff. split.
  - intros (pre & post & H). destruct pre as [ | c' pre ].
    + left. now exists post.
    + right. injection H as _ H. now exists pre, post.
  - intros [(r & H) | (pre & post & H)].
    + now exists "", r.
    + exists (String c pre), post. simpl. now rewrite H.
Qed.

Lemma find_from_occurs (k s : string) (pos : nat) :
  size_ne (find_from k s pos) npos = true <-> occurs k s.
Proof.
  revert pos. induction s as [ | c s IH ]; intros pos; cbn [find_from].
  - rewrite occurs_empty. destruct (prefix k ""); simpl; intuition congruence.
  - rewrite occurs_cons. destruct (prefix k (String c s)).
    + simpl. intuition congruence.
    + rewrite IH. intuition congruence.
Qed.

(** The test [textStr.find(kw) != npos] holds exactly when [kw] occurs. *)
Lemma found_iff (s k : string) : found s k = true <-> occurs k s.
Proof. apply find_from_occurs. Qed.


End StringFacts.

Import StringFacts.

(* ================================================================== *)
(** * Facts about characters, lower-casing and the accent counter *)
(* ================================================================== *)

Module CharFacts.

(** What [tolower] does to one [char], whatever the signedness: an upper
    case ASCII letter becomes the lower case one, any other byte is kept. *)
Lemma tolower_char (sgn : bool) (c : ascii) :
  char_of_int (tolower (char_value sgn c))
  = if ((65 <=? N_of_ascii c) && (N_of_ascii c <=? 90))%N
    then ascii_of_N (N_of_ascii c + 32)
    else c.
Proof.
  destruct sgn; destruct c as [[] [] [] [] [] [] [] []]; vm_compute; reflexivity.
Qed.

(** The test [c < 0 || c > 127] singles out the bytes above 127, whatever
    the signedness of [char]. *)
Lemma non_ascii_test (sgn : bool) (c : ascii) :
  (char_value sgn c <? 0) || (127 <? char_value sgn c)
  = (127 <? N_of_ascii c)%N.
Proof.
  destruct sgn; destruct c as [[] [] [] [] [] [] [] []]; vm_compute; reflexivity.
Qed.

Lemma tolower_keeps_non_ascii (sgn : bool) (c : ascii) :
  (127 < N_of_ascii c)%N -> char_of_int (tolower (char_value sgn c)) = c.
Proof.
  intros H. rewrite tolower_char.
  destruct (N.leb_spec (N_of_ascii c) 90); [lia | now rewrite andb_false_r].
Qed.

Lemma tolower_same_letter (sgn : bool) (c c' : ascii) :
  same_letter c c' ->
  char_of_int (tolower (char_value sgn c)) = char_of_int (tolower (char_value sgn c')).
Proof.
  assert (Hul : forall u l, upper_lower u l ->
            char_of_int (tolower (char_value sgn u)) = char_of_int (tolower (char_value sgn l))).
  { intros u l [Hu Hl]. rewrite !tolower_char.
    destruct (N.leb_spec 65 (N_of_ascii u)); [ | lia].
    destruct (N.leb_spec (N_of_ascii u) 90); [ | lia].
    destruct (N.leb_spec (N_of_ascii l) 90); [lia | ].
    rewrite andb_false_r. cbn [andb].
    rewrite <- Hl. apply ascii_N_embedding. }
  intros [-> | [H | H]]; [reflexivity | now apply Hul | symmetry; now apply Hul].
Qed.

Lemma same_letter_zero (c c' : ascii) :
  same_letter c c' -> Ascii.eqb c zero = Ascii.eqb c' zero.
Proof.
  assert (Hnz : forall a, (1 <= N_of_ascii a)%N -> Ascii.eqb a zero = false).
  { intros a Ha. apply Ascii.eqb_neq. intros ->. vm_compute in Ha. now apply Ha. }
  intros [-> | [[Hu Hl] | [Hu Hl]]]; [reflexivity | | ];
    rewrite (Hnz c), (Hnz c') by lia; reflexivity.
Qed.

Lemma transform_app (sgn : bool) (f : Z -> Z) (a b : string) :
  transform sgn f (a ++ b) = transform sgn f a ++ transform sgn f b.
Proof. induction a as [ | c a IH ]; simpl; [reflexivity | now rewrite IH]. Qed.

(** A pattern that lower-casing leaves alone is still there afterwards. *)
Lemma occurs_transform (sgn : bool) (k s : string) :
  transform sgn tolower k = k -> occurs k s -> occurs k (transform sgn tolower s).
Proof.
  intros Hk (pre & post & ->).
  exists (transform sgn tolower pre), (transform sgn tolower post).
  now rewrite !transform_app, Hk.
Qed.

Lemma transform_length (sgn : bool) (f : Z -> Z) (s : string) :
  String.length (transform sgn f s) = String.length s.
Proof. induction s as [ | c s IH ]; simpl; [reflexivity | now rewrite IH]. Qed.

Lemma c_str_case_variant (s s' : string) :
  case_variant s s' -> case_variant (string_of_c_str s) (string_of_c_str s').
Proof.
  induction 1 as [ | c c' s s' Hc _ IH ]; simpl.
  - constructor.
  - rewrite <- (same_letter_zero c c' Hc).
    destruct (Ascii.eqb c zero); now constructor.
Qed.

Lemma transform_case_variant (sgn : bool) (s s' : string) :
  case_variant s s' -> transform sgn tolower s = transform sgn tolower s'.
Proof.
  induction 1 as [ | c c' s s' Hc _ IH ]; simpl.
  - reflexivity.
  - now rewrite (tolower_same_letter sgn c c' Hc), IH.
Qed.

(** Texts that differ only in letter case have the same normal form. *)
Lemma normalized_case_variant (sgn : bool) (t t' : string) :
  case_variant t t' -> normalized sgn t = normalized sgn t'.
Proof.
  intros H. unfold normalized.
  apply transform_case_variant, c_str_case_variant, H.
Qed.

(** Spaces: normalisation neither creates nor needs one. *)
Lemma prefix_space (c : ascii) (s : string) :
  prefix " " (String c s) = true <-> c = " "%char.
Proof.
  cbn [prefix]. destruct (ascii_dec " " c) as [<- | Hc].
  - split; [reflexivity | intros _; now destruct s].
  - split; [discriminate | congruence].
Qed.




Lemma occurs_delimited_space (kw s : string) :
  occurs (delimited kw) s -> occurs " " s.
Proof.
  intros (pre & post & ->). exists pre, (kw ++ " " ++ post).
  unfold delimited. simpl. now rewrite append_assoc.
Qed.


(** The [int] counter: below [2^31] it does not wrap. *)
Lemma int_wrap_small (z : Z) : - 2 ^ 31 <= z < 2 ^ 31 -> int_wrap z = z.
Proof.
  intros H. unfold int_wrap.
  rewrite Z.mod_small; lia.
Qed.

Lemma count_accents_spec (sgn : bool) (s : string) :
  forall acc : Z,
    0 <= acc -> acc + Z.of_nat (String.length s) < 2 ^ 31 ->
    count_accents sgn s acc = acc + Z.of_nat (non_ascii_count s).
Proof.
  induction s as [ | c s IH ]; intros acc Hacc Hlen; cbn [count_accents non_ascii_count].
  - simpl. lia.
  - cbn [String.length] in Hlen. rewrite non_ascii_test.
    destruct (127 <? N_of_ascii c)%N.
    + rewrite int_wrap_small by lia. rewrite IH by lia. lia.
    + rewrite IH by lia. lia.
Qed.

Lemma non_ascii_count_le (s : string) :
  (non_ascii_count s <= String.length s)%nat.
Proof.
  induction s as [ | c s IH ]; simpl; [lia | ].
  destruct (127 <? N_of_ascii c)%N; lia.
Qed.

End CharFacts.

Import CharFacts.

(* ================================================================== *)
(** * Facts about binary64 arithmetic *)
(* ================================================================== *)

Module Binary64Facts.

(** The literal [0.1] is the 53-bit mantissa at exponent [-56] nearest to
    one tenth: [10 * m] is as close to [2^56] as a multiple of ten gets. *)
Lemma double_0_1_nearest (m : Z) :
  Z.abs (10 * 7205759403792794 - 2 ^ 56) <= Z.abs (10 * m - 2 ^ 56).
Proof. change (2 ^ 56) with 72057594037927936. lia. Qed.

Lemma digits2_pos_bounds (p : positive) :
  2 ^ (Zpos (digits2_pos p) - 1) <= Zpos p < 2 ^ Zpos (digits2_pos p).
Proof.
  induction p as [p IH | p IH | ]; simpl digits2_pos.
  - rewrite Pos2Z.inj_succ.
    replace (Z.succ (Zpos (digits2_pos p)) - 1) with (Z.succ (Zpos (digits2_pos p) - 1)) by lia.
    rewrite !Z.pow_succ_r by lia. lia.
  - rewrite Pos2Z.inj_succ.
    replace (Z.succ (Zpos (digits2_pos p)) - 1) with (Z.succ (Zpos (digits2_pos p) - 1)) by lia.
    rewrite !Z.pow_succ_r by lia. lia.
  - simpl. lia.
Qed.

Lemma digits2_pos_unique (p : positive) (d : Z) :
  2 ^ (d - 1) <= Zpos p < 2 ^ d -> Zpos (digits2_pos p) = d.
Proof.
  intros [Hlo Hhi].
  destruct (digits2_pos_bounds p) as [Glo Ghi].
  assert (Hd : 0 < d).
  { destruct (Z.ltb_spec 0 d) as [|Hle]; [assumption|].
    exfalso. assert (2 ^ d <= 2 ^ 0) by (apply Z.pow_le_mono_r; lia).
    simpl in *. lia. }
  destruct (Z.lt_trichotomy (Zpos (digits2_pos p)) d) as [Hlt | [Heq | Hgt]].
  - exfalso.
    assert (2 ^ Zpos (digits2_pos p) <= 2 ^ (d - 1)) by (apply Z.pow_le_mono_r; lia).
    lia.
  - assumption.
  - exfalso.
    assert (2 ^ d <= 2 ^ (Zpos (digits2_pos p) - 1)) by (apply Z.pow_le_mono_r; lia).
    lia.
Qed.

Lemma shr_1_m (mrs : shr_record) :
  0 <= shr_m mrs -> shr_m (shr_1 mrs) = shr_m mrs / 2.
Proof.
  destruct mrs as [m r s]. simpl. intros Hm.
  destruct m as [ | [p | p | ] | p ]; cbn [shr_m]; try lia; try reflexivity.
  - apply Z.div_unique with (r := 1); lia.
  - apply Z.div_unique with (r := 0); lia.
Qed.

Lemma iter_shr_1_m (p : positive) :
  forall mrs, 0 <= shr_m mrs ->
    shr_m (iter_pos shr_1 p mrs) = shr_m mrs / 2 ^ Zpos p.
Proof.
  induction p as [p IH | p IH | ]; intros mrs Hm; simpl iter_pos.
  - assert (H1 : 0 <= shr_m (shr_1 mrs)) by (rewrite shr_1_m by assumption; apply Z.div_pos; lia).
    assert (H2 : 0 <= shr_m (iter_pos shr_1 p (shr_1 mrs)))
      by (rewrite IH by assumption; apply Z.div_pos; [assumption | apply Z.pow_pos_nonneg; lia]).
    rewrite IH by assumption. rewrite IH by assumption. rewrite shr_1_m by assumption.
    rewrite !Z.div_div by (try apply Z.pow_pos_nonneg; lia).
    f_equal.
    change (Zpos p~1) with (2 * Zpos p + 1).
    replace (2 * Zpos p + 1) with (1 + Zpos p + Zpos p) by lia.
    rewrite !Z.pow_add_r by lia. change (2 ^ 1) with 2. lia.
  - assert (H2 : 0 <= shr_m (iter_pos shr_1 p mrs))
      by (rewrite IH by assumption; apply Z.div_pos; [assumption | apply Z.pow_pos_nonneg; lia]).
    rewrite IH by assumption. rewrite IH by assumption.
    rewrite !Z.div_div by (try apply Z.pow_pos_nonneg; lia).
    f_equal.
    change (Zpos p~0) with (2 * Zpos p).
    replace (2 * Zpos p) with (Zpos p + Zpos p) by lia.
    rewrite !Z.pow_add_r by lia. lia.
  - rewrite shr_1_m by assumption. reflexivity.
Qed.

Lemma iter_xO_value (d p : positive) :
  Zpos (Pos.iter xO p d) = Zpos p * 2 ^ Zpos d.
Proof.
  revert p. induction d as [ | d IH ] using Pos.peano_ind; intros p.
  - simpl. lia.
  - rewrite Pos.iter_succ. rewrite Pos2Z.inj_xO, IH.
    rewrite Pos2Z.inj_succ, Z.pow_succ_r by lia. lia.
Qed.

Lemma fexp_normal (x : Z) : -1021 <= x -> fexp prec emax x = x - 53.
Proof. intros H. unfold fexp, emin, prec, emax. lia. Qed.

Lemma round_nearest_even_cases (m : Z) (l : location) :
  round_nearest_even m l = m \/ round_nearest_even m l = m + 1.
Proof.
  destruct l as [ | [ | | ] ]; simpl; auto.
  destruct (Z.even m); auto.
Qed.

(** A 53-bit mantissa with an exponent in range is already rounded. *)
Lemma binary_round_aux_exact (s : bool) (m : positive) (e : Z) :
  2 ^ 52 <= Zpos m < 2 ^ 53 -> -1074 <= e <= 971 ->
  binary_round_aux prec emax s (Zpos m) e loc_Exact = S754_finite s m e.
Proof.
  intros Hm He.
  assert (Hd : Zpos (digits2_pos m) = 53) by (apply digits2_pos_unique; exact Hm).
  unfold binary_round_aux, shr_fexp. cbn [Zdigits2 shr_record_of_loc].
  rewrite Hd, fexp_normal by lia.
  replace (53 + e - 53 - e) with 0 by lia.
  cbn [shr shr_m loc_of_shr_record round_nearest_even Zdigits2 shr_record_of_loc].
  rewrite Hd, fexp_normal by lia.
  replace (53 + e - 53 - e) with 0 by lia.
  cbn [shr shr_m].
  replace (e <=? emax - prec) with true; [reflexivity|].
  symmetry. apply Z.leb_le. unfold emax, prec. lia.
Qed.

(** Rounding a mantissa of [53 + k] bits drops its [k] low bits and rounds
    the quotient down or up; the result is normalised again. *)
Lemma binary_round_aux_shift (s : bool) (X : positive) (e k : Z) :
  1 <= k ->
  2 ^ (52 + k) <= Zpos X < 2 ^ (53 + k) ->
  -1074 <= e -> e + k + 1 <= 971 ->
  exists (m' : positive) (e' : Z),
    binary_round_aux prec emax s (Zpos X) e loc_Exact = S754_finite s m' e' /\
    2 ^ 52 <= Zpos m' < 2 ^ 53 /\
    e + k <= e' /\
    (Zpos m' * 2 ^ (e' - (e + k)) = Zpos X / 2 ^ k \/
     Zpos m' * 2 ^ (e' - (e + k)) = Zpos X / 2 ^ k + 1).
Proof.
  intros Hk HX He1 He2.
  assert (Hd : Zpos (digits2_pos X) = 53 + k).
  { apply digits2_pos_unique. replace (53 + k - 1) with (52 + k) by lia. exact HX. }
  assert (Hpk : 0 < 2 ^ k) by (apply Z.pow_pos_nonneg; lia).
  assert (Hq : 2 ^ 52 <= Zpos X / 2 ^ k < 2 ^ 53).
  { rewrite !Z.pow_add_r in HX by lia. split.
    - apply Z.div_le_lower_bound; lia.
    - apply Z.div_lt_upper_bound; lia. }
  unfold binary_round_aux, shr_fexp. cbn [Zdigits2 shr_record_of_loc].
  rewrite Hd, fexp_normal by lia.
  replace (53 + k + e - 53 - e) with k by lia.
  destruct k as [ | kp | kp ]; try lia.
  cbn [shr].
  set (mrs := iter_pos shr_1 kp _).
  assert (Hmrs : shr_m mrs = Zpos X / 2 ^ Zpos kp).
  { unfold mrs. rewrite iter_shr_1_m; cbn [shr_m]; [reflexivity | lia]. }
  destruct (round_nearest_even_cases (shr_m mrs) (loc_of_shr_record mrs)) as [Hr | Hr];
    rewrite Hr, Hmrs.
  - (* rounded down *)
    destruct (Zpos X / 2 ^ Zpos kp) as [ | q | q ] eqn:Eq; try lia.
    assert (Hdq : Zpos (digits2_pos q) = 53) by (apply digits2_pos_unique; exact Hq).
    cbn [Zdigits2 shr_record_of_loc]. rewrite Hdq, fexp_normal by lia.
    replace (53 + (e + Zpos kp) - 53 - (e + Zpos kp)) with 0 by lia.
    cbn [shr shr_m].
    replace (e + Zpos kp <=? emax - prec) with true
      by (symmetry; apply Z.leb_le; unfold emax, prec; lia).
    exists q, (e + Zpos kp). repeat split; try lia.
    left. rewrite Z.sub_diag. simpl (2 ^ 0). lia.
  - (* rounded up *)
    destruct (Zpos X / 2 ^ Zpos kp + 1) as [ | q | q ] eqn:Eq; try lia.
    destruct (Z.eq_dec (Zpos q) (2 ^ 53)) as [Hc | Hc].
    + (* the carry reaches 2^53: one more bit is shifted out *)
      assert (Hdq : Zpos (digits2_pos q) = 54) by (apply digits2_pos_unique; rewrite Hc; simpl; lia).
      cbn [Zdigits2 shr_record_of_loc]. rewrite Hdq, fexp_normal by lia.
      replace (54 + (e + Zpos kp) - 53 - (e + Zpos kp)) with 1 by lia.
      cbn [shr iter_pos].
      assert (Hm : shr_m (shr_1 {| shr_m := Zpos q; shr_r := false; shr_s := false |}) = 2 ^ 52).
      { rewrite shr_1_m; cbn [shr_m]; [ | lia]. rewrite Hc. reflexivity. }
      rewrite Hm. change (2 ^ 52) with (Zpos (2 ^ 52)%positive).
      cbv iota beta.
      replace (e + Zpos kp + 1 <=? emax - prec) with true
        by (symmetry; apply Z.leb_le; unfold emax, prec; lia).
      exists (2 ^ 52)%positive, (e + Zpos kp + 1). repeat split; try lia.
      right. replace (e + Zpos kp + 1 - (e + Zpos kp)) with 1 by lia.
      rewrite Hc. reflexivity.
    + assert (Hdq : Zpos (digits2_pos q) = 53) by (apply digits2_pos_unique; lia).
      cbn [Zdigits2 shr_record_of_loc]. rewrite Hdq, fexp_normal by lia.
      replace (53 + (e + Zpos kp) - 53 - (e + Zpos kp)) with 0 by lia.
      cbn [shr shr_m].
      replace (e + Zpos kp <=? emax - prec) with true
        by (symmetry; apply Z.leb_le; unfold emax, prec; lia).
      exists q, (e + Zpos kp). repeat split; try lia.
      right. rewrite Z.sub_diag. simpl (2 ^ 0). lia.
Qed.

(** A positive integer below [2^53] converts exactly: its mantissa is the
    integer shifted left to 53 bits. *)
Lemma double_of_Z_pos (p : positive) :
  Zpos p < 2 ^ 53 ->
  exists (m : positive) (s : Z),
    0 <= s <= 52 /\
    Zpos m = Zpos p * 2 ^ s /\
    2 ^ 52 <= Zpos m < 2 ^ 53 /\
    double_of_Z (Zpos p) = S754_finite false m (- s).
Proof.
  intros Hp.
  destruct (digits2_pos_bounds p) as [Hlo Hhi].
  set (d := Zpos (digits2_pos p)) in *.
  assert (Hd : 1 <= d <= 53).
  { split; [unfold d; lia|].
    destruct (Z.leb_spec d 53) as [|Hgt]; [assumption|].
    exfalso. assert (2 ^ 53 <= 2 ^ (d - 1)) by (apply Z.pow_le_mono_r; lia). lia. }
  unfold double_of_Z, binary_normalize, binary_round, shl_align.
  fold d. rewrite Z.add_0_r, fexp_normal by lia. rewrite Z.sub_0_r.
  destruct (d - 53) as [ | sp | sp ] eqn:Es; try lia.
  - assert (Hm : 2 ^ 52 <= Zpos p < 2 ^ 53) by (replace d with 53 in * by lia; simpl in Hlo; lia).
    exists p, 0. repeat split; try lia.
    apply (binary_round_aux_exact false p 0 Hm). lia.
  - assert (Hv : Zpos (Pos.iter xO p sp) = Zpos p * 2 ^ Zpos sp) by apply iter_xO_value.
    assert (Hm : 2 ^ 52 <= Zpos (Pos.iter xO p sp) < 2 ^ 53).
    { rewrite Hv. replace 52 with ((d - 1) + Zpos sp) by lia.
      replace 53 with (d + Zpos sp) by lia.
      rewrite !Z.pow_add_r by lia.
      assert (0 < 2 ^ Zpos sp) by (apply Z.pow_pos_nonneg; lia).
      split; [apply Z.mul_le_mono_nonneg_r | apply Z.mul_lt_mono_pos_r]; lia. }
    exists (Pos.iter xO p sp), (Zpos sp). repeat split; try lia.
    change (- Zpos sp) with (Zneg sp).
    apply (binary_round_aux_exact false _ _ Hm). lia.
Qed.

(** Comparison of two positive normalised doubles is the comparison of
    their values, here scaled by [2^-B] for a common lower exponent [B]. *)
Lemma SFltb_finite_pos (m1 m2 : positive) (e1 e2 B : Z) :
  2 ^ 52 <= Zpos m1 < 2 ^ 53 -> 2 ^ 52 <= Zpos m2 < 2 ^ 53 ->
  B <= e1 -> B <= e2 ->
  SFltb (S754_finite false m1 e1) (S754_finite false m2 e2)
  = (Zpos m1 * 2 ^ (e1 - B) <? Zpos m2 * 2 ^ (e2 - B)).
Proof.
  intros H1 H2 B1 B2.
  unfold SFltb, SFcompare.
  assert (P1 : 0 < 2 ^ (e1 - B)) by (apply Z.pow_pos_nonneg; lia).
  assert (P2 : 0 < 2 ^ (e2 - B)) by (apply Z.pow_pos_nonneg; lia).
  destruct (Z.compare_spec e1 e2) as [He | He | He].
  - subst e2. change (Pos.compare_cont Eq m1 m2) with (Z.compare (Zpos m1) (Zpos m2)).
    destruct (Z.compare_spec (Zpos m1) (Zpos m2)) as [Hm | Hm | Hm]; symmetry.
    + apply Z.ltb_ge. rewrite Hm. lia.
    + apply Z.ltb_lt. apply Z.mul_lt_mono_pos_r; lia.
    + apply Z.ltb_ge. apply Z.mul_le_mono_nonneg_r; lia.
  - symmetry. apply Z.ltb_lt.
    replace (e2 - B) with ((e2 - e1 - 1) + 1 + (e1 - B)) by lia.
    rewrite !Z.pow_add_r by lia. change (2 ^ 1) with 2.
    assert (Ht : 0 < 2 ^ (e2 - e1 - 1)) by (apply Z.pow_pos_nonneg; lia).
    set (a := 2 ^ (e1 - B)) in *. set (t := 2 ^ (e2 - e1 - 1)) in *.
    assert (Zpos m1 * a < 2 * Zpos m2 * a) by (apply Z.mul_lt_mono_pos_r; lia).
    assert (2 * Zpos m2 * a * 1 <= 2 * Zpos m2 * a * t)
      by (apply Z.mul_le_mono_nonneg_l; [apply Z.mul_nonneg_nonneg|]; lia).
    lia.
  - symmetry. apply Z.ltb_ge.
    replace (e1 - B) with ((e1 - e2 - 1) + 1 + (e2 - B)) by lia.
    rewrite !Z.pow_add_r by lia. change (2 ^ 1) with 2.
    assert (Ht : 0 < 2 ^ (e1 - e2 - 1)) by (apply Z.pow_pos_nonneg; lia).
    set (a := 2 ^ (e2 - B)) in *. set (t := 2 ^ (e1 - e2 - 1)) in *.
    assert (Zpos m2 * a < 2 * Zpos m1 * a) by (apply Z.mul_lt_mono_pos_r; lia).
    assert (2 * Zpos m1 * a * 1 <= 2 * Zpos m1 * a * t)
      by (apply Z.mul_le_mono_nonneg_l; [apply Z.mul_nonneg_nonneg|]; lia).
    lia.
Qed.

(** The integer core of the comparison: [10 * 7205759403792794 = 2^56 + 4]. *)
Lemma tenth_arith (a n S k q r : Z) :
  0 < a -> a <= n -> n < 2 ^ 31 -> 2 ^ 52 <= n * S ->
  (k = 52 \/ k = 53) ->
  q = (n * S * 7205759403792794) / 2 ^ k ->
  (r = q \/ r = q + 1) ->
  (r * 2 ^ k <? a * S * 2 ^ 56) = (n <? 10 * a).
Proof.
  intros Ha Han Hn HS Hk Hq Hr.
  assert (HSpos : 2 ^ 21 < S) by nia.
  set (U := a * S). set (V := n * S) in *.
  assert (HU : U < 2 ^ 31 * S) by (unfold U; apply Z.mul_lt_mono_pos_r; lia).
  assert (Hpk : 0 < 2 ^ k) by (destruct Hk; subst k; reflexivity).
  pose proof (Z.div_mod (V * 7205759403792794) (2 ^ k) ltac:(lia)) as Hdm.
  pose proof (Z.mod_pos_bound (V * 7205759403792794) (2 ^ k) Hpk) as Hmod.
  rewrite <- Hq in Hdm.
  destruct (Z.ltb_spec n (10 * a)) as [Hlt | Hge].
  - apply Z.ltb_lt.
    assert (HV : V <= 10 * U - S).
    { unfold U, V. replace (10 * (a * S) - S) with ((10 * a - 1) * S) by ring.
      apply Z.mul_le_mono_nonneg_r; lia. }
    assert (Hrk : r * 2 ^ k <= 2 ^ k * q + 2 ^ k) by (destruct Hr; subst r; lia).
    destruct Hk; subst k; change (2 ^ 52) with 4503599627370496 in *;
      change (2 ^ 53) with 9007199254740992 in *;
      change (2 ^ 56) with 72057594037927936 in *;
      change (2 ^ 31) with 2147483648 in *; change (2 ^ 21) with 2097152 in *; lia.
  - apply Z.ltb_ge.
    assert (HV : 10 * U <= V).
    { unfold U, V. rewrite Z.mul_assoc. apply Z.mul_le_mono_nonneg_r; lia. }
    assert (Hqr : q * 2 ^ k <= r * 2 ^ k) by (destruct Hr; subst r; lia).
    destruct Hk; subst k; change (2 ^ 52) with 4503599627370496 in *;
      change (2 ^ 53) with 9007199254740992 in *;
      change (2 ^ 56) with 72057594037927936 in *;
      change (2 ^ 31) with 2147483648 in *; change (2 ^ 21) with 2097152 in *; lia.
Qed.

(** On a count and a length below [2^31] the floating-point test
    [count > length * 0.1] is the exact test [10 * count > length]. *)
Lemma double_tenth_exact (a n : Z) :
  0 <= a <= n -> n < 2 ^ 31 ->
  double_gt (double_of_Z a) (double_mul (double_of_Z n) double_0_1) = (n <? 10 * a).
Proof.
  intros [Ha Han] Hn.
  destruct n as [ | pn | pn ]; try lia.
  { replace a with 0 by lia. reflexivity. }
  destruct (double_of_Z_pos pn ltac:(lia)) as (mn & sn & Hsn & Hmn & Bmn & En).
  rewrite En. unfold double_mul, double_0_1, SFmul. cbn [xorb].
  set (C := 7205759403792794%positive).
  assert (HX : 2 ^ 104 <= Zpos (mn * C) < 2 ^ 106).
  { rewrite Pos2Z.inj_mul. unfold C.
    change (2 ^ 104) with (2 ^ 52 * 2 ^ 52). change (2 ^ 106) with (2 ^ 53 * 2 ^ 53).
    split.
    - apply Z.mul_le_mono_nonneg; lia.
    - apply Z.mul_lt_mono_nonneg; lia. }
  assert (Hk : exists k, (k = 52 \/ k = 53) /\ 2 ^ (52 + k) <= Zpos (mn * C) < 2 ^ (53 + k)).
  { destruct (Z.lt_ge_cases (Zpos (mn * C)) (2 ^ 105)) as [Hlt | Hge].
    - exists 52. split; [auto|]. change (52 + 52) with 104. change (53 + 52) with 105. lia.
    - exists 53. split; [auto|]. change (52 + 53) with 105. change (53 + 53) with 106. lia. }
  destruct Hk as (k & Hk & HXk).
  destruct (binary_round_aux_shift false (mn * C) (- sn + -56) k
              ltac:(lia) HXk ltac:(lia) ltac:(lia))
    as (m' & e' & EP & Bm' & He' & Hr).
  rewrite EP.
  destruct a as [ | pa | pa ]; try lia.
  { (* no non-ASCII byte at all *)
    reflexivity. }
  destruct (double_of_Z_pos pa ltac:(lia)) as (ma & sa & Hsa & Hma & Bma & Ea).
  rewrite Ea. unfold double_gt.
  rewrite (SFltb_finite_pos m' ma e' (- sa) (- sn + -56) Bm' Bma) by lia.
  replace (e' - (- sn + -56)) with ((e' - (- sn + -56 + k)) + k) by lia.
  rewrite Z.pow_add_r by lia. rewrite Z.mul_assoc.
  replace (- sa - (- sn + -56)) with (sn + 56 - sa) by lia.
  rewrite Hma.
  replace (Zpos pa * 2 ^ sa * 2 ^ (sn + 56 - sa)) with (Zpos pa * 2 ^ sn * 2 ^ 56).
  2:{ rewrite <- !Z.mul_assoc. f_equal. rewrite <- !Z.pow_add_r by lia. f_equal. lia. }
  apply (tenth_arith (Zpos pa) (Zpos pn) (2 ^ sn) k (Zpos (mn * C) / 2 ^ k)); try lia.
  - rewrite Pos2Z.inj_mul, Hmn. reflexivity.
Qed.

End Binary64Facts.

Import Binary64Facts.

(* ================================================================== *)
(** * Facts about the keyword cascade and the entry points *)
(* ================================================================== *)

Module DetectFacts.

Lemma existsb_language_matches (txt : string) (kws : list string) :
  existsb (fun kw => found txt (delimited kw)) kws = true <-> language_matches txt kws.
Proof.
  unfold language_matches, keyword_matches.
  rewrite existsb_exists, Exists_exists.
  split; intros (kw & Hin & H); exists kw; (split; [exact Hin | now apply found_iff]).
Qed.

Lemma existsb_language_matches_false (txt : string) (kws : list string) :
  existsb (fun kw => found txt (delimited kw)) kws = false <-> ~ language_matches txt kws.
Proof.
  rewrite <- existsb_language_matches.
  destruct (existsb _ kws); intuition congruence.
Qed.

(** The loop over a table returns the first language in priority. *)
Lemma first_match_priority (table : list (string * list string)) (txt code : string) :
  first_in_priority table txt code -> first_match table txt = Some code.
Proof.
  intros (before & kws & after & -> & Hm & Hb).
  induction before as [ | [c ks] before IH ]; cbn [first_match app].
  - apply existsb_language_matches in Hm. now rewrite Hm.
  - inversion Hb as [ | ? ? Hc Hb' ]; subst.
    apply existsb_language_matches_false in Hc. cbn [snd] in Hc. rewrite Hc.
    now apply IH.
Qed.

Lemma first_match_sound (table : list (string * list string)) (txt code : string) :
  first_match table txt = Some code -> first_in_priority table txt code.
Proof.
  induction table as [ | [c ks] table IH ]; cbn [first_match]; [discriminate | ].
  destruct (existsb _ ks) eqn:E.
  - intros [= ->]. exists [], ks, table. repeat split.
    + now apply existsb_language_matches.
    + constructor.
  - intros H. destruct (IH H) as (before & kws & after & -> & Hm & Hb).
    exists ((c, ks) :: before), kws, after. repeat split; [exact Hm | ].
    constructor; [ | exact Hb]. now apply existsb_language_matches_false.
Qed.

Lemma first_match_none (table : list (string * list string)) (txt : string) :
  first_match table txt = None <->
  Forall (fun entry => ~ language_matches txt (snd entry)) table.
Proof.
  induction table as [ | [c ks] table IH ]; cbn [first_match].
  - split; [constructor | reflexivity].
  - destruct (existsb _ ks) eqn:E.
    + split; [discriminate | ].
      intros H. inversion H as [ | ? ? Hc _ ]; subst.
      apply existsb_language_matches in E. contradiction.
    + rewrite IH. split.
      * intros H. constructor; [ | exact H]. now apply existsb_language_matches_false.
      * intros H. now inversion H.
Qed.

(** The chain of conditionals is the loop over [KeywordSet]. *)
Lemma keyword_result_first_match (txt : string) :
  keyword_result txt
  = match first_match KeywordSet txt with Some code => code | None => "en" end.
Proof.
  unfold keyword_result.
  cbn [first_match KeywordSet existsb delimited append].
  rewrite !orb_false_r, !orb_assoc.
  repeat match goal with
         | |- context [if ?c then _ else _] => destruct c; [reflexivity | ]
         end.
  reflexivity.
Qed.

Lemma keyword_result_codes (txt : string) :
  In (keyword_result txt) ["es"; "fr"; "de"; "it"; "pt"; "en"].
Proof.
  unfold keyword_result.
  repeat match goal with
         | |- context [if ?c then _ else _] => destruct c; [simpl; tauto | ]
         end.
  simpl; tauto.
Qed.

Lemma keyword_free_result (txt : string) :
  keyword_free txt -> keyword_result txt = "en".
Proof.
  intros H. rewrite keyword_result_first_match.
  apply first_match_none in H. now rewrite H.
Qed.

(** [classify] spelled out on the normalised text. *)
Lemma classify_eq (sgn : bool) (nativeText : string) :
  classify sgn nativeText
  = if accent_threshold_exceeded
         (count_accents sgn (normalized sgn nativeText) 0)
         (String.length (normalized sgn nativeText))
       && String.eqb (keyword_result (normalized sgn nativeText)) "en"
    then "mul"
    else keyword_result (normalized sgn nativeText).
Proof. reflexivity. Qed.

Lemma classify_codes (sgn : bool) (nativeText : string) :
  In (classify sgn nativeText) classified_codes.
Proof.
  rewrite classify_eq.
  destruct (_ && _).
  - simpl; tauto.
  - pose proof (keyword_result_codes (normalized sgn nativeText)) as H.
    simpl in H |- *. tauto.
Qed.

Lemma classified_code_c_str (code : string) :
  In code classified_codes -> string_of_c_str code = code.
Proof.
  simpl. intros [<- | [<- | [<- | [<- | [<- | [<- | [<- | []]]]]]]]; reflexivity.
Qed.

(** A keyword-determined result is not touched by the fallback. *)
Lemma classify_keyword (sgn : bool) (nativeText : string) :
  keyword_result (normalized sgn nativeText) <> "en" ->
  classify sgn nativeText = keyword_result (normalized sgn nativeText).
Proof.
  intros H. rewrite classify_eq.
  apply String.eqb_neq in H. rewrite H. now rewrite andb_false_r.
Qed.

(** Without a keyword the result is decided by the accent test alone. *)
Lemma classify_keyword_free (sgn : bool) (nativeText : string) :
  keyword_result (normalized sgn nativeText) = "en" ->
  classify sgn nativeText
  = if accent_threshold_exceeded
         (count_accents sgn (normalized sgn nativeText) 0)
         (String.length (normalized sgn nativeText))
    then "mul" else "en".
Proof.
  intros H. rewrite classify_eq, H. cbn [String.eqb]. simpl.
  now rewrite andb_true_r.
Qed.

(** The accent test in exact arithmetic, for texts shorter than [2^31]. *)
Lemma accent_test_exact (sgn : bool) (txt : string) :
  Z.of_nat (String.length txt) < 2 ^ 31 ->
  accent_threshold_exceeded (count_accents sgn txt 0) (String.length txt)
  = (Z.of_nat (String.length txt) <? 10 * Z.of_nat (non_ascii_count txt)).
Proof.
  intros Hlen. unfold accent_threshold_exceeded.
  rewrite count_accents_spec by lia. rewrite Z.add_0_l.
  apply double_tenth_exact; [ | exact Hlen].
  pose proof (non_ascii_count_le txt). lia.
Qed.

(** What [detect] returns, and what it leaves behind, on each path. *)
Lemma detect_null (sgn : bool) (env : JNIEnv) (h : jlong) (w : World) :
  detect sgn env h nullptr w = (Some "und", w).
Proof. reflexivity. Qed.

Lemma detect_undelivered (sgn : bool) (env : JNIEnv) (h : jlong)
    (text : jstring) (w : World) :
  utf_chars env text = None -> detect sgn env h text w = (Some "und", w).
Proof.
  intros H. destruct text as [bytes | ]; [ | reflexivity].
  run_native.
  now rewrite H.
Qed.

Lemma detect_delivered (sgn : bool) (env : JNIEnv) (h : jlong)
    (text : jstring) (nativeText : string) (w : World) :
  delivers env text nativeText ->
  result (detect sgn env h text w) = Some (classify sgn nativeText).
Proof.
  unfold delivers. intros H.
  destruct text as [bytes | ]; [ | discriminate H].
  run_native.
  rewrite H. cbn.
  now rewrite (classified_code_c_str _ (classify_codes sgn nativeText)).
Qed.

(** Every path of [detect] gives back the buffer it obtained. *)
Lemma detect_buffers_balanced (sgn : bool) (env : JNIEnv) (h : jlong)
    (text : jstring) (w : World) :
  utf_buffers (world_after (detect sgn env h text w)) = utf_buffers w.
Proof.
  destruct (utf_chars env text) as [nativeText | ] eqn:E.
  - destruct text as [bytes | ]; [ | discriminate E].
    run_native. now rewrite E.
  - now rewrite (detect_undelivered sgn env h text w E).
Qed.

End DetectFacts.

Import DetectFacts.

(* ================================================================== *)
(** * The properties of the specification *)
(* ================================================================== *)

Lemma first_match_code_in_table (table : list (string * list string))
    (txt code : string) :
  first_match table txt = Some code -> In code (map fst table).
Proof.
  induction table as [ | [c ks] table IH ]; cbn [first_match]; [discriminate | ].
  destruct (existsb _ ks); [intros [= ->]; now left | intros H; right; now apply IH].
Qed.

Lemma first_in_priority_result (txt code : string) :
  first_in_priority KeywordSet txt code ->
  keyword_result txt = code /\ code <> "en".
Proof.
  intros H. apply first_match_priority in H.
  rewrite keyword_result_first_match, H. split; [reflexivity | ].
  apply first_match_code_in_table in H. simpl in H.
  intros ->. intuition discriminate.
Qed.

(** The result of [detect] does not depend on the world it runs in. *)
Lemma detect_result_any_world (sgn : bool) (env : JNIEnv) (h h' : jlong)
    (text : jstring) (w w' : World) :
  result (detect sgn env h text w) = result (detect sgn env h' text w').
Proof.
  destruct (utf_chars env text) as [nativeText | ] eqn:E.
  - now rewrite !(detect_delivered sgn env _ text nativeText _ E).
  - now rewrite !(detect_undelivered sgn env _ text _ E).
Qed.

(** C1.  For a text that reaches the native code, [detect] returns the code
    of the first language, in the order Spanish, French, German, Italian,
    Portuguese of [KeywordSet], one of whose keywords occurs in the
    lower-cased text between two spaces; the languages after it have no say.
    In particular a text that contains both " el " and " der " is "es". *)
Theorem detect_first_language_in_priority
    (sgn : bool) (env : JNIEnv) (handle : jlong) (text : jstring)
    (nativeText : string) (w : World) :
  delivers env text nativeText ->
  (forall code : string,
      first_in_priority KeywordSet (normalized sgn nativeText) code ->
      result (detect sgn env handle text w) = Some code) /\
  (occurs " el " (string_of_c_str nativeText) ->
   occurs " der " (string_of_c_str nativeText) ->
   result (detect sgn env handle text w) = Some "es").
Proof.
  intros Hd.
  assert (Hgen : forall code,
             first_in_priority KeywordSet (normalized sgn nativeText) code ->
             result (detect sgn env handle text w) = Some code).
  { intros code Hp. apply first_in_priority_result in Hp as [Hk Hne].
    rewrite (detect_delivered sgn env handle text nativeText w Hd).
    rewrite classify_keyword by (rewrite Hk; exact Hne).
    now rewrite Hk. }
  split; [exact Hgen | ].
  intros Hel _. apply Hgen.
  exists [], ["el"; "la"; "de"; "que"; "es"; "con"; "y"; "en"; "un"; "una"],
    (tl KeywordSet).
  split; [reflexivity | split; [ | constructor]].
  apply Exists_cons_hd. unfold keyword_matches, normalized.
  apply occurs_transform; [destruct sgn; reflexivity | exact Hel].
Qed.

Lemma detect_first_language_in_priority_witness :
  result (detect true env_delivering 7 (Some "Ich und du ET moi") world_empty)
  = Some "fr".
Proof.
  apply (proj1 (detect_first_language_in_priority
                  true env_delivering 7 (Some "Ich und du ET moi")
                  "Ich und du ET moi" world_empty eq_refl)).
  exists [("es", ["el"; "la"; "de"; "que"; "es"; "con"; "y"; "en"; "un"; "una"])],
    ["le"; "la"; "et"; "ce"; "qui"; "avec"; "est"; "dans"; "pour"; "un"],
    (tl (tl KeywordSet)).
  split; [reflexivity | split].
  - apply existsb_language_matches. vm_compute. reflexivity.
  - constructor; [ | constructor].
    apply existsb_language_matches_false. vm_compute. reflexivity.
Defined.

(** C2.  [detect] returns "und" exactly when the text is null or cannot be
    obtained from the environment.  On a null text it returns at once and
    leaves the world as it was; a text that reaches the native code gets one
    of es, fr, de, it, pt, en, mul and never "und". *)
Theorem detect_und_iff_unavailable
    (sgn : bool) (env : JNIEnv) (handle : jlong) (text : jstring) (w : World) :
  (result (detect sgn env handle text w) = Some "und" <->
   text = nullptr \/ utf_chars env text = nullptr) /\
  (text = nullptr -> detect sgn env handle text w = (Some "und", w)) /\
  (forall nativeText : string,
      delivers env text nativeText ->
      In (result (detect sgn env handle text w)) (map Some classified_codes) /\
      result (detect sgn env handle text w) <> Some "und").
Proof.
  assert (Hcodes : forall nativeText, delivers env text nativeText ->
            In (result (detect sgn env handle text w)) (map Some classified_codes) /\
            result (detect sgn env handle text w) <> Some "und").
  { intros nativeText Hd.
    rewrite (detect_delivered sgn env handle text nativeText w Hd).
    pose proof (classify_codes sgn nativeText) as Hc.
    split; [now apply in_map | ].
    intros [= E]. rewrite E in Hc. simpl in Hc. intuition discriminate. }
  split; [ | split; [ | exact Hcodes]].
  - split.
    + intros Hr. right.
      destruct (utf_chars env text) as [nativeText | ] eqn:E; [ | reflexivity].
      exfalso. exact (proj2 (Hcodes nativeText E) Hr).
    + intros [-> | E]; [reflexivity | ].
      now rewrite (detect_undelivered sgn env handle text w E).
  - intros ->. reflexivity.
Qed.

(** C4.  When the keyword cascade has settled on one of es, fr, de, it, pt,
    [detect] returns that code: the non-ASCII fallback does not change it,
    however many bytes of the text are outside ASCII. *)
Theorem detect_keyword_result_kept
    (sgn : bool) (env : JNIEnv) (handle : jlong) (text : jstring)
    (nativeText : string) (w : World) :
  delivers env text nativeText ->
  In (keyword_result (normalized sgn nativeText)) ["es"; "fr"; "de"; "it"; "pt"] ->
  result (detect sgn env handle text w)
  = Some (keyword_result (normalized sgn nativeText)).
Proof.
  intros Hd Hin.
  rewrite (detect_delivered sgn env handle text nativeText w Hd).
  rewrite classify_keyword; [reflexivity | ].
  intros E. rewrite E in Hin. simpl in Hin. intuition discriminate.
Qed.

(** C9.  The handle is never read: two calls of [detect] that differ only in
    the handle return the same code and have the same effect. *)
Theorem detect_ignores_handle
    (sgn : bool) (env : JNIEnv) (h1 h2 : jlong) (text : jstring) (w : World) :
  detect sgn env h1 text w = detect sgn env h2 text w.
Proof. reflexivity. Qed.

Lemma detect_keyword_result_kept_witness :
  result (detect false env_delivering 0
            (Some (" el " ++ replicate 40 e_acute)) world_empty)
  = Some "es".
Proof.
  apply (detect_keyword_result_kept false env_delivering 0
           (Some (" el " ++ replicate 40 e_acute))
           (" el " ++ replicate 40 e_acute) world_empty eq_refl).
  vm_compute. left. reflexivity.
Defined.

(** The fall-through within the range of the [int] counter.  For a text of
    fewer than [2^31] bytes that reaches the native code and in which no
    keyword of any language occurs between two spaces, [detect] returns
    "mul" when the bytes outside ASCII are more than a tenth of the length of
    the normalised text, and "en" otherwise.  The empty string gives "en". *)
Theorem detect_fallback_mul_or_en
    (sgn : bool) (env : JNIEnv) (handle : jlong) (text : jstring)
    (nativeText : string) (w : World) :
  delivers env text nativeText ->
  keyword_free (normalized sgn nativeText) ->
  Z.of_nat (String.length (normalized sgn nativeText)) < 2 ^ 31 ->
  ((String.length (normalized sgn nativeText)
      < 10 * non_ascii_count (normalized sgn nativeText))%nat ->
   result (detect sgn env handle text w) = Some "mul") /\
  ((10 * non_ascii_count (normalized sgn nativeText)
      <= String.length (normalized sgn nativeText))%nat ->
   result (detect sgn env handle text w) = Some "en") /\
  (nativeText = "" -> result (detect sgn env handle text w) = Some "en").
Proof.
  intros Hd Hfree Hlen.
  rewrite (detect_delivered sgn env handle text nativeText w Hd).
  rewrite classify_keyword_free by (now apply keyword_free_result).
  rewrite accent_test_exact by exact Hlen.
  split; [ | split].
  - intros H. destruct (Z.ltb_spec
      (Z.of_nat (String.length (normalized sgn nativeText)))
      (10 * Z.of_nat (non_ascii_count (normalized sgn nativeText)))); [reflexivity | lia].
  - intros H. destruct (Z.ltb_spec
      (Z.of_nat (String.length (normalized sgn nativeText)))
      (10 * Z.of_nat (non_ascii_count (normalized sgn nativeText)))); [lia | reflexivity].
  - intros ->. reflexivity.
Qed.

Lemma keyword_free_by_search (txt : string) :
  first_match KeywordSet txt = None -> keyword_free txt.
Proof. apply first_match_none. Qed.

Lemma detect_fallback_mul_or_en_witness :
  result (detect true env_delivering 0 (Some (replicate 50 e_acute)) world_empty)
  = Some "mul" /\
  result (detect true env_delivering 0 (Some "") world_empty) = Some "en".
Proof.
  split.
  - apply (detect_fallback_mul_or_en true env_delivering 0
             (Some (replicate 50 e_acute)) (replicate 50 e_acute) world_empty eq_refl).
    + apply keyword_free_by_search. vm_compute. reflexivity.
    + vm_compute. reflexivity.
    + apply Nat.ltb_lt. vm_compute. reflexivity.
  - apply (detect_fallback_mul_or_en true env_delivering 0
             (Some "") "" world_empty eq_refl).
    + apply keyword_free_by_search. vm_compute. reflexivity.
    + vm_compute. reflexivity.
    + reflexivity.
Defined.

(** C5.  Two texts that differ only in the case of ASCII letters have the
    same normalised text, and so [detect] returns the same code for both,
    whenever both reach the native code.  Lower-casing maps 'A'..'Z' to
    'a'..'z' byte by byte and leaves the bytes above 127 as they are. *)
Theorem detect_case_insensitive
    (sgn : bool) (env : JNIEnv) (h h' : jlong) (text text' : jstring)
    (t t' : string) (w w' : World) :
  delivers env text t ->
  delivers env text' t' ->
  case_variant t t' ->
  normalized sgn t = normalized sgn t' /\
  result (detect sgn env h text w) = result (detect sgn env h' text' w') /\
  (forall c : ascii,
      (65 <= N_of_ascii c <= 90)%N ->
      transform sgn tolower (String c "")
      = String (ascii_of_N (N_of_ascii c + 32)) "") /\
  (forall c : ascii,
      (127 < N_of_ascii c)%N -> transform sgn tolower (String c "") = String c "").
Proof.
  intros Hd Hd' Hcv.
  pose proof (normalized_case_variant sgn t t' Hcv) as Hn.
  split; [exact Hn | split].
  - rewrite (detect_delivered sgn env h text t w Hd).
    rewrite (detect_delivered sgn env h' text' t' w' Hd').
    now rewrite !classify_eq, Hn.
  - split.
    + intros c [Hlo Hhi]. cbn [transform]. rewrite tolower_char.
      apply N.leb_le in Hlo, Hhi. now rewrite Hlo, Hhi.
    + intros c Hc. cbn [transform]. now rewrite tolower_keeps_non_ascii.
Qed.

Lemma case_variant_refl (s : string) : case_variant s s.
Proof. induction s; constructor; [now left | assumption]. Qed.

Lemma detect_case_insensitive_witness :
  result (detect true env_delivering 1 (Some "El gato") world_empty)
  = result (detect true env_delivering 1 (Some "el gato") world_empty) /\
  result (detect true env_delivering 1 (Some "el gato") world_empty)
  = result (detect true env_delivering 1 (Some "EL GATO") world_empty).
Proof.
  split.
  - apply (detect_case_insensitive true env_delivering 1 1
             (Some "El gato") (Some "el gato") "El gato" "el gato"
             world_empty world_empty eq_refl eq_refl).
    constructor; [right; left; split; vm_compute; intuition discriminate | ].
    apply case_variant_refl.
  - apply (detect_case_insensitive true env_delivering 1 1
             (Some "el gato") (Some "EL GATO") "el gato" "EL GATO"
             world_empty world_empty eq_refl eq_refl).
    repeat (constructor;
            [first [ now left
                   | right; right; split; vm_compute; intuition discriminate ] | ]).
    constructor.
Defined.

(** C6.  The test for a keyword succeeds exactly when the keyword stands in
    the lower-cased text with a space right before and right after it, and a
    language code is returned only if one of its keywords stands so.  The
    keyword inside a longer word ("model"), at the very start ("el gato") or
    at the very end ("gato el") of the text is no match for " el ". *)
Theorem keyword_needs_both_spaces :
  (forall txt kw : string,
      found txt (delimited kw) = true <->
      exists pre post : string, txt = pre ++ " " ++ kw ++ " " ++ post) /\
  (forall (sgn : bool) (env : JNIEnv) (handle : jlong) (text : jstring)
          (nativeText : string) (w : World) (code : string) (kws : list string),
      delivers env text nativeText ->
      In (code, kws) KeywordSet ->
      result (detect sgn env handle text w) = Some code ->
      language_matches (normalized sgn nativeText) kws) /\
  (occurs "el" "model" /\ found "model" (delimited "el") = false /\
   result (detect true env_delivering 0 (Some "model") world_empty) = Some "en") /\
  (occurs "el" "el gato" /\ found "el gato" (delimited "el") = false /\
   result (detect true env_delivering 0 (Some "el gato") world_empty) = Some "en") /\
  (occurs "el" "gato el" /\ found "gato el" (delimited "el") = false /\
   result (detect true env_delivering 0 (Some "gato el") world_empty) = Some "en") /\
  result (detect true env_delivering 0 (Some "gato el gato") world_empty) = Some "es".
Proof.
  split; [ | split].
  - intros txt kw. rewrite found_iff. unfold occurs, delimited.
    split; intros (pre & post & ->); exists pre, post;
      now rewrite ?append_assoc.
  - intros sgn env handle text nativeText w code kws Hd Hin Hr.
    rewrite (detect_delivered sgn env handle text nativeText w Hd) in Hr.
    injection Hr as Hr.
    destruct (first_match KeywordSet (normalized sgn nativeText)) as [c | ] eqn:E.
    + pose proof (first_match_sound _ _ _ E) as Hp.
      destruct (first_in_priority_result _ _ Hp) as [Hk Hne].
      rewrite classify_keyword in Hr by (rewrite Hk; exact Hne).
      rewrite Hk in Hr. subst c.
      destruct Hp as (before & kws' & after & Ht & Hm & _).
      assert (kws' = kws); [ | now subst].
      assert (Hin' : In (code, kws') KeywordSet)
        by (rewrite Ht; apply in_elt).
      clear - Hin Hin'. simpl in Hin, Hin'.
      repeat match goal with
             | H : _ \/ _ |- _ => destruct H
             | H : (_, _) = (_, _) |- _ => injection H as ? ?; subst
             | H : False |- _ => destruct H
             end; congruence.
    + exfalso.
      assert (Hk : keyword_result (normalized sgn nativeText) = "en")
        by (rewrite keyword_result_first_match, E; reflexivity).
      rewrite classify_keyword_free in Hr by exact Hk.
      simpl in Hin.
      destruct (accent_threshold_exceeded _ _);
        repeat match goal with
               | H : _ \/ _ |- _ => destruct H
               | H : (_, _) = (_, _) |- _ => injection H as ? ?; subst
               | H : False |- _ => destruct H
               end; congruence.
  - repeat split; try (vm_compute; reflexivity).
    + now exists "mod", "".
    + now exists "", " gato".
    + now exists "gato ", "".
Qed.

(** C7.  [release] does nothing but, for a non-zero handle, write one log
    record: it always returns, gives back and takes no buffer, and with the
    handle 0 leaves the world untouched.  After it, once or twice, every
    call of [detect], with the same or another handle, returns what it would
    have returned before. *)
Theorem release_is_noop
    (sgn : bool) (env : JNIEnv) (handle : jlong) (w : World) :
  let w1 := world_after (release handle w) in
  let w2 := world_after (release handle w1) in
  release handle w = (tt, w1) /\
  utf_buffers w1 = utf_buffers w /\
  (exists records, logcat w1 = (logcat w ++ records)%list /\
                   (List.length records <= 1)%nat) /\
  (handle = 0 -> w1 = w) /\
  (forall (h : jlong) (text : jstring),
      result (detect sgn env h text w1) = result (detect sgn env h text w)) /\
  utf_buffers w2 = utf_buffers w1 /\
  (forall (h : jlong) (text : jstring),
      result (detect sgn env h text w2) = result (detect sgn env h text w1)).
Proof.
  cbv zeta.
  repeat split.
  - now destruct (release handle w) as [[] ?].
  - run_native.
    destruct (handle =? 0); reflexivity.
  - run_native.
    destruct (handle =? 0); cbn.
    + exists []. rewrite app_nil_r. destruct w; split; [reflexivity | simpl; lia].
    + eexists. split; [reflexivity | simpl; lia].
  - intros ->. now destruct w.
  - intros h text. apply detect_result_any_world.
  - run_native.
    destruct (handle =? 0); reflexivity.
  - intros h text. apply detect_result_any_world.
Qed.

(** C8.  [getVersion] returns "1.2.0" and touches nothing.  [initialize]
    returns the empty string for a null hint, and "1.2.0" for every hint that
    reaches the native code, whatever its bytes are; having logged it, it has
    given back the buffer it took. *)
Theorem version_and_initialize (env : JNIEnv) (w : World) :
  getVersion env w = (Some "1.2.0", w) /\
  initialize env nullptr w = (Some "", w) /\
  (forall (modelPath : jstring) (path : string),
      delivers env modelPath path ->
      result (initialize env modelPath w) = Some "1.2.0" /\
      utf_buffers (world_after (initialize env modelPath w)) = utf_buffers w) /\
  (forall modelPath : jstring,
      utf_chars env modelPath = nullptr ->
      initialize env modelPath w = (Some "", w)).
Proof.
  repeat split.
  - unfold delivers in H.
    run_native.
    now rewrite H.
  - unfold delivers in H.
    run_native.
    now rewrite H.
  - intros modelPath H.
    run_native.
    now rewrite H.
Qed.



(* ================================================================== *)
(** * The concrete scenarios of the specification *)
(* ================================================================== *)

Module Scenarios.

Example scenario_spanish (sgn : bool) :
  result (detect sgn env_delivering 1 (Some "El perro y el gato") world_empty)
  = Some "es".
Proof. destruct sgn; vm_compute; reflexivity. Qed.

Example scenario_french (sgn : bool) :
  result (detect sgn env_delivering 1 (Some "Le chat et le chien") world_empty)
  = Some "fr".
Proof. destruct sgn; vm_compute; reflexivity. Qed.

Example scenario_german (sgn : bool) :
  result (detect sgn env_delivering 1 (Some "Der Hund und die Katze") world_empty)
  = Some "de".
Proof. destruct sgn; vm_compute; reflexivity. Qed.

Example scenario_empty (sgn : bool) :
  result (detect sgn env_delivering 1 (Some "") world_empty) = Some "en".
Proof. destruct sgn; vm_compute; reflexivity. Qed.

Example scenario_accented (sgn : bool) :
  result (detect sgn env_delivering 1 (Some (replicate 50 e_acute)) world_empty)
  = Some "mul".
Proof. destruct sgn; vm_compute; reflexivity. Qed.

Example scenario_null (sgn : bool) :
  result (detect sgn env_delivering 1 nullptr world_empty) = Some "und".
Proof. reflexivity. Qed.

Example scenario_unprocessable (sgn : bool) :
  detect sgn env_exhausted 1 (Some "El perro y el gato") world_empty
  = (Some "und", world_empty).
Proof. reflexivity. Qed.

(** Two bytes in twenty outside ASCII are not yet more than a tenth. *)
Example scenario_exactly_a_tenth (sgn : bool) :
  result (detect sgn env_delivering 1
            (Some (e_acute ++ "abcdefghijklmnopqr")) world_empty) = Some "en" /\
  result (detect sgn env_delivering 1
            (Some (e_acute ++ "abcdefghijklmnopq")) world_empty) = Some "mul".
Proof. destruct sgn; vm_compute; split; reflexivity. Qed.

(** The log and the buffers after a call of [detect] and of [release]. *)
Example scenario_effects :
  world_after (detect true env_delivering 1 (Some "El gato") world_empty)
  = {| logcat := [ {| log_priority := ANDROID_LOG_INFO;
                      log_tag := "LanguageIdJNI";
                      log_format := "Detecting language for text: %s";
                      log_args := [ArgString "El gato"] |} ];
       utf_buffers := 0 |} /\
  logcat (world_after (release 5 world_empty))
  = [ {| log_priority := ANDROID_LOG_INFO;
         log_tag := "LanguageIdJNI";
         log_format := "Language identifier resources cleaned up for handle: %lld (Placeholder - no specific resources allocated)";
         log_args := [ArgLongLong 5] |} ].
Proof. split; reflexivity. Qed.

End Scenarios.

(* ================================================================== *)
(** * Further properties of the entry points *)
(* ================================================================== *)

Module MoreFacts.

(** The chain of conditionals is also the loop over [DecidingKeywords]: a
    test repeated from an earlier branch is false whenever it is reached. *)
Lemma keyword_result_deciding (txt : string) :
  keyword_result txt
  = match first_match DecidingKeywords txt with Some code => code | None => "en" end.
Proof.
  unfold keyword_result.
  cbn [first_match DecidingKeywords existsb delimited append].
  repeat match goal with
         | |- context [found txt ?k] =>
             destruct (found txt k); cbn [orb]; [reflexivity | ]
         end.
  reflexivity.
Qed.

Lemma first_match_tables_agree (txt : string) :
  first_match KeywordSet txt = first_match DecidingKeywords txt.
Proof.
  cbn [first_match KeywordSet DecidingKeywords existsb delimited append].
  repeat match goal with
         | |- context [found txt ?k] =>
             destruct (found txt k); cbn [orb]; [reflexivity | ]
         end.
  reflexivity.
Qed.

(** The code of a delivered text, by cases on the loop over the table. *)
Lemma classify_by_first_match (sgn : bool) (nativeText : string) :
  match first_match KeywordSet (normalized sgn nativeText) with
  | Some code =>
      classify sgn nativeText = code /\ In code (map fst KeywordSet)
  | None =>
      keyword_free (normalized sgn nativeText) /\
      classify sgn nativeText
      = if accent_threshold_exceeded
             (count_accents sgn (normalized sgn nativeText) 0)
             (String.length (normalized sgn nativeText))
        then "mul" else "en"
  end.
Proof.
  destruct (first_match KeywordSet (normalized sgn nativeText)) as [code | ] eqn:E.
  - pose proof (first_match_sound _ _ _ E) as Hp.
    destruct (first_in_priority_result _ _ Hp) as [Hk Hne].
    split; [ | exact (first_match_code_in_table _ _ _ E)].
    rewrite classify_keyword by (rewrite Hk; exact Hne). exact Hk.
  - split; [now apply first_match_none | ].
    apply classify_keyword_free.
    now rewrite keyword_result_first_match, E.
Qed.

Lemma language_code_not_sentinel (code : string) :
  In code (map fst KeywordSet) -> code <> "en" /\ code <> "mul".
Proof.
  simpl. intros [<- | [<- | [<- | [<- | [<- | []]]]]]; split; discriminate.
Qed.

End MoreFacts.

Import MoreFacts.

(** X1.  For a text that reaches the native code and a language code of the
    table, [detect] returns the code if and only if the language is the
    first, in the order of the table, with a keyword between two spaces in
    the lower-cased text: a later language is returned only when no keyword
    of an earlier one occurs. *)
Theorem detect_language_iff_first_in_priority
    (sgn : bool) (env : JNIEnv) (handle : jlong) (text : jstring)
    (nativeText : string) (w : World) (code : string) :
  delivers env text nativeText ->
  In code (map fst KeywordSet) ->
  (result (detect sgn env handle text w) = Some code <->
   first_in_priority KeywordSet (normalized sgn nativeText) code).
Proof.
  intros Hd Hin.
  rewrite (detect_delivered sgn env handle text nativeText w Hd).
  pose proof (classify_by_first_match sgn nativeText) as Hc.
  split.
  - intros [= Hr].
    destruct (first_match KeywordSet (normalized sgn nativeText)) as [c | ] eqn:E.
    + destruct Hc as [Hc _]. apply first_match_sound. rewrite E. congruence.
    + exfalso. destruct Hc as [_ Hc]. rewrite Hc in Hr.
      destruct (language_code_not_sentinel code Hin) as [Hen Hmul].
      destruct (accent_threshold_exceeded _ _); congruence.
  - intros Hp. apply first_match_priority in Hp. rewrite Hp in Hc.
    now rewrite (proj1 Hc).
Qed.

Lemma detect_language_iff_first_in_priority_witness :
  first_in_priority KeywordSet (normalized true "Der Hund und die Katze") "de".
Proof.
  apply (detect_language_iff_first_in_priority true env_delivering 2
           (Some "Der Hund und die Katze") "Der Hund und die Katze"
           world_empty "de" eq_refl).
  - simpl. tauto.
  - vm_compute. reflexivity.
Defined.

(** X2.  The tests that an earlier branch has already made never decide:
    the chain gives the same result as the loop over the table without
    them, so that "fr" is returned only for one of le, et, ce, qui, avec,
    est, dans, pour, "it" only for one of il, che, per, sono, e, in, non,
    and "pt" only for one of o, a, para, com, em, um, uma. *)
Theorem repeated_keywords_never_decide
    (sgn : bool) (env : JNIEnv) (handle : jlong) (text : jstring)
    (nativeText : string) (w : World) (code : string) (kws : list string) :
  delivers env text nativeText ->
  In (code, kws) DecidingKeywords ->
  result (detect sgn env handle text w) = Some code ->
  language_matches (normalized sgn nativeText) kws /\
  first_in_priority DecidingKeywords (normalized sgn nativeText) code.
Proof.
  intros Hd Hin Hr.
  rewrite (detect_delivered sgn env handle text nativeText w Hd) in Hr.
  injection Hr as Hr.
  pose proof (classify_by_first_match sgn nativeText) as Hc.
  rewrite first_match_tables_agree in Hc.
  destruct (first_match DecidingKeywords (normalized sgn nativeText)) as [c | ] eqn:E.
  - destruct Hc as [Hc _]. assert (Hcc : c = code) by congruence.
    rewrite Hcc in E. clear Hc Hr Hcc c.
    pose proof (first_match_sound _ _ _ E) as Hp.
    split; [ | exact Hp].
    destruct Hp as (before & kws' & after & Ht & Hm & _).
    assert (kws' = kws); [ | now subst].
    assert (Hin' : In (code, kws') DecidingKeywords) by (rewrite Ht; apply in_elt).
    clear - Hin Hin'. simpl in Hin, Hin'.
    repeat match goal with
           | H : _ \/ _ |- _ => destruct H
           | H : (_, _) = (_, _) |- _ => injection H as ? ?; subst
           | H : False |- _ => destruct H
           end; congruence.
  - exfalso. destruct Hc as [_ Hc]. rewrite Hc in Hr.
    simpl in Hin.
    destruct (accent_threshold_exceeded _ _);
      repeat match goal with
             | H : _ \/ _ |- _ => destruct H
             | H : (_, _) = (_, _) |- _ => injection H as ? ?; subst
             | H : False |- _ => destruct H
             end; congruence.
Qed.

Lemma repeated_keywords_never_decide_witness :
  language_matches (normalized false "Il pleut et il neige")
    ["le"; "et"; "ce"; "qui"; "avec"; "est"; "dans"; "pour"].
Proof.
  apply (repeated_keywords_never_decide false env_delivering 0
           (Some "Il pleut et il neige") "Il pleut et il neige" world_empty
           "fr" _ eq_refl).
  - simpl. tauto.
  - vm_compute. reflexivity.
Defined.

Module FallbackFacts.

(** Rounding keeps the sign: the result is a zero, a finite number or an
    infinity of the sign asked for, or not a number. *)
Lemma binary_round_aux_sign (s : bool) (mx ex : Z) (lx : location) :
  match binary_round_aux prec emax s mx ex lx with
  | S754_zero s' | S754_infinity s' | S754_finite s' _ _ => s' = s
  | S754_nan => True
  end.
Proof.
  unfold binary_round_aux.
  destruct (shr_fexp prec emax mx ex lx) as [mrs' e'].
  destruct (shr_fexp prec emax _ e' loc_Exact) as [mrs'' e''].
  destruct (shr_m mrs''); [reflexivity | | exact I].
  destruct (e'' <=? emax - prec); reflexivity.
Qed.

Lemma double_of_nat_sign (n : nat) :
  match double_of_Z (Z.of_nat n) with
  | S754_zero s' | S754_infinity s' | S754_finite s' _ _ => s' = false
  | S754_nan => True
  end.
Proof.
  unfold double_of_Z, binary_normalize.
  destruct (Z.of_nat n) as [ | p | p ] eqn:E; [reflexivity | | lia].
  unfold binary_round.
  destruct (shl_align p 0 _) as [mz ez].
  apply binary_round_aux_sign.
Qed.

(** Without a byte outside ASCII the accent test fails, whatever the length. *)
Lemma accent_test_zero (n : nat) : accent_threshold_exceeded 0 n = false.
Proof.
  unfold accent_threshold_exceeded, double_gt, double_mul, double_0_1.
  change (double_of_Z 0) with (S754_zero false).
  pose proof (double_of_nat_sign n) as Hs.
  destruct (double_of_Z (Z.of_nat n)) as [s | s | | s m e]; try subst s;
    try reflexivity.
  cbn [SFmul xorb].
  pose proof (binary_round_aux_sign false
                (Zpos (m * 7205759403792794)) (e + -56) loc_Exact) as Hp.
  destruct (binary_round_aux _ _ _ _ _ _) as [s | s | | s m' e']; try subst s;
    reflexivity.
Qed.

(** Lower-casing moves no byte across the boundary of ASCII. *)
Lemma tolower_non_ascii (sgn : bool) (c : ascii) :
  (127 <? N_of_ascii (char_of_int (tolower (char_value sgn c))))%N
  = (127 <? N_of_ascii c)%N.
Proof.
  destruct sgn; destruct c as [[] [] [] [] [] [] [] []]; vm_compute; reflexivity.
Qed.

Lemma non_ascii_count_transform (sgn : bool) (s : string) :
  non_ascii_count (transform sgn tolower s) = non_ascii_count s.
Proof.
  induction s as [ | c s IH ]; cbn [transform non_ascii_count]; [reflexivity | ].
  now rewrite tolower_non_ascii, IH.
Qed.

Lemma count_accents_transform (sgn : bool) (s : string) :
  forall acc : Z,
    count_accents sgn (transform sgn tolower s) acc = count_accents sgn s acc.
Proof.
  induction s as [ | c s IH ]; intros acc; cbn [transform count_accents];
    [reflexivity | ].
  now rewrite !non_ascii_test, tolower_non_ascii, IH.
Qed.

Lemma count_accents_ascii (sgn : bool) (s : string) :
  forall acc : Z, non_ascii_count s = O -> count_accents sgn s acc = acc.
Proof.
  induction s as [ | c s IH ]; intros acc H; cbn [count_accents non_ascii_count] in *;
    [reflexivity | ].
  rewrite non_ascii_test.
  destruct (127 <? N_of_ascii c)%N; [discriminate H | now apply IH].
Qed.

End FallbackFacts.

Import FallbackFacts.

(** X3.  For a text of fewer than [2^31] bytes that reaches the native
    code, the two results of the fall-through are characterised: [detect]
    returns "mul" exactly when no keyword matches and more than a tenth of
    the bytes are outside ASCII, and "en" exactly when no keyword matches
    and at most a tenth are. *)
Theorem detect_mul_en_iff
    (sgn : bool) (env : JNIEnv) (handle : jlong) (text : jstring)
    (nativeText : string) (w : World) :
  delivers env text nativeText ->
  Z.of_nat (String.length (normalized sgn nativeText)) < 2 ^ 31 ->
  (result (detect sgn env handle text w) = Some "mul" <->
   keyword_free (normalized sgn nativeText) /\
   (String.length (normalized sgn nativeText)
      < 10 * non_ascii_count (normalized sgn nativeText))%nat) /\
  (result (detect sgn env handle text w) = Some "en" <->
   keyword_free (normalized sgn nativeText) /\
   (10 * non_ascii_count (normalized sgn nativeText)
      <= String.length (normalized sgn nativeText))%nat).
Proof.
  intros Hd Hlen.
  rewrite (detect_delivered sgn env handle text nativeText w Hd).
  pose proof (classify_by_first_match sgn nativeText) as Hc.
  destruct (first_match KeywordSet (normalized sgn nativeText)) as [c | ] eqn:E.
  - destruct Hc as [Hc Hin].
    destruct (language_code_not_sentinel c Hin) as [Hen Hmul].
    assert (Hnf : ~ keyword_free (normalized sgn nativeText)).
    { intros Hf. apply first_match_none in Hf. congruence. }
    rewrite Hc. split; split; try (intros [Hf _]; contradiction);
      intros [= ->]; congruence.
  - destruct Hc as [Hf Hc]. rewrite Hc, accent_test_exact by exact Hlen.
    destruct (Z.ltb_spec (Z.of_nat (String.length (normalized sgn nativeText)))
                (10 * Z.of_nat (non_ascii_count (normalized sgn nativeText))));
      split; split; try (intros [= ]); try (intros [_ Hn]; exfalso; lia);
      try reflexivity; (split; [exact Hf | lia]).
Qed.

Lemma detect_mul_en_iff_witness :
  keyword_free (normalized true (replicate 3 e_acute ++ "t")) /\
  (String.length (normalized true (replicate 3 e_acute ++ "t"))
     < 10 * non_ascii_count (normalized true (replicate 3 e_acute ++ "t")))%nat.
Proof.
  apply (proj1 (detect_mul_en_iff true env_delivering 0
                  (Some (replicate 3 e_acute ++ "t")) (replicate 3 e_acute ++ "t")
                  world_empty eq_refl ltac:(vm_compute; reflexivity))).
  vm_compute. reflexivity.
Defined.

(** X4.  A text without a byte outside ASCII is never "mul", whatever its
    length: [detect] returns what the keyword chain gives, a language code
    or "en". *)
Theorem ascii_text_never_mul
    (sgn : bool) (env : JNIEnv) (handle : jlong) (text : jstring)
    (nativeText : string) (w : World) :
  delivers env text nativeText ->
  non_ascii_count (string_of_c_str nativeText) = O ->
  result (detect sgn env handle text w)
  = Some (keyword_result (normalized sgn nativeText)) /\
  result (detect sgn env handle text w) <> Some "mul".
Proof.
  intros Hd Hz.
  rewrite (detect_delivered sgn env handle text nativeText w Hd).
  rewrite classify_eq.
  assert (Hn : non_ascii_count (normalized sgn nativeText) = O)
    by (unfold normalized; now rewrite non_ascii_count_transform).
  rewrite (count_accents_ascii sgn _ 0 Hn), accent_test_zero. cbn [andb].
  split; [reflexivity | ].
  pose proof (keyword_result_codes (normalized sgn nativeText)) as Hk.
  intros [= E]. rewrite E in Hk. simpl in Hk. intuition discriminate.
Qed.

Lemma ascii_text_never_mul_witness :
  result (detect false env_delivering 0 (Some "12:30 - 14:45 ???") world_empty)
  = Some "en".
Proof.
  apply (ascii_text_never_mul false env_delivering 0
           (Some "12:30 - 14:45 ???") "12:30 - 14:45 ???" world_empty eq_refl).
  vm_compute. reflexivity.
Defined.

(** X5.  Lower-casing changes neither the length of the text nor which of
    its bytes are outside ASCII, so the accent test gives on the text as
    received what it gives on the lower-cased text: the result of [detect]
    can be read off the keyword chain and the counts of the received text. *)
Theorem fallback_reads_received_text
    (sgn : bool) (env : JNIEnv) (handle : jlong) (text : jstring)
    (nativeText : string) (w : World) :
  delivers env text nativeText ->
  String.length (normalized sgn nativeText)
  = String.length (string_of_c_str nativeText) /\
  non_ascii_count (normalized sgn nativeText)
  = non_ascii_count (string_of_c_str nativeText) /\
  result (detect sgn env handle text w)
  = Some (if accent_threshold_exceeded
               (count_accents sgn (string_of_c_str nativeText) 0)
               (String.length (string_of_c_str nativeText))
             && String.eqb (keyword_result (normalized sgn nativeText)) "en"
          then "mul"
          else keyword_result (normalized sgn nativeText)).
Proof.
  intros Hd.
  rewrite (detect_delivered sgn env handle text nativeText w Hd), classify_eq.
  unfold normalized at 1 2 3 4.
  now rewrite transform_length, non_ascii_count_transform, count_accents_transform.
Qed.

Lemma fallback_reads_received_text_witness :
  String.length (normalized true (e_acute ++ "T E"))
  = String.length (string_of_c_str (e_acute ++ "T E")).
Proof.
  apply (fallback_reads_received_text true env_delivering 0
           (Some (e_acute ++ "T E")) (e_acute ++ "T E") world_empty eq_refl).
Defined.

Module ContextFacts.

Lemma occurs_in_context (k s pre post : string) :
  occurs k s -> occurs k (pre ++ s ++ post).
Proof.
  intros (a & b & ->). exists (pre ++ a), (b ++ post).
  now rewrite !append_assoc.
Qed.

(** The C string of a buffer that starts with a NUL-free part. *)
Lemma c_str_app (a b : string) :
  nul_free a -> string_of_c_str (a ++ b) = a ++ string_of_c_str b.
Proof.
  unfold nul_free. induction a as [ | c a IH ]; cbn [string_of_c_str append].
  - reflexivity.
  - destruct (Ascii.eqb c zero); [discriminate | ].
    intros [= H]. now rewrite IH.
Qed.

Lemma normalized_in_context (sgn : bool) (pre t post : string) :
  nul_free pre -> nul_free t ->
  normalized sgn (pre ++ t ++ post)
  = transform sgn tolower pre ++ normalized sgn t
    ++ transform sgn tolower (string_of_c_str post).
Proof.
  intros Hp Ht. unfold normalized.
  rewrite (c_str_app pre _ Hp), (c_str_app t _ Ht), Ht.
  now rewrite !transform_app.
Qed.

Lemma found_in_context (sgn : bool) (pre t post k : string) :
  nul_free pre -> nul_free t ->
  found (normalized sgn t) k = true ->
  found (normalized sgn (pre ++ t ++ post)) k = true.
Proof.
  intros Hp Ht H. apply found_iff. apply found_iff in H.
  rewrite (normalized_in_context sgn pre t post Hp Ht).
  now apply occurs_in_context.
Qed.

(** Around a text, every keyword test that held still holds, so the chain
    stops at the same branch or at an earlier one. *)
Lemma keyword_result_in_context (sgn : bool) (pre t post : string) :
  nul_free pre -> nul_free t ->
  (priority_rank (keyword_result (normalized sgn (pre ++ t ++ post)))
   <= priority_rank (keyword_result (normalized sgn t)))%nat.
Proof.
  intros Hp Ht.
  assert (Hm : forall kws,
             existsb (fun kw => found (normalized sgn t) (delimited kw)) kws = true ->
             existsb (fun kw => found (normalized sgn (pre ++ t ++ post)) (delimited kw))
                     kws = true).
  { intros kws. rewrite !existsb_exists. intros (k & Hin & Hk).
    exists k. split; [exact Hin | now apply found_in_context]. }
  rewrite !keyword_result_first_match.
  cbn [first_match KeywordSet].
  repeat match goal with
         | |- context [existsb (fun kw => found (normalized sgn t) (delimited kw)) ?l] =>
             let E := fresh "E" in
             destruct (existsb (fun kw => found (normalized sgn t) (delimited kw)) l) eqn:E;
             [ rewrite (Hm l E) | ]; clear E
         end;
    repeat match goal with
           | |- context [if ?c then _ else _] => destruct c
           end;
    apply Nat.leb_le; vm_compute; reflexivity.
Qed.

End ContextFacts.

Import ContextFacts.

Lemma priority_rank_bound (code : string) : (priority_rank code <= 5)%nat.
Proof.
  unfold priority_rank.
  repeat match goal with
         | |- context [if ?c then _ else _] => destruct c
         end; lia.
Qed.

Lemma priority_rank_es (code : string) : priority_rank code = O -> code = "es".
Proof.
  unfold priority_rank.
  destruct (String.eqb_spec code "es") as [-> | _]; [reflexivity | ].
  repeat match goal with
         | |- context [if ?c then _ else _] => destruct c
         end; discriminate.
Qed.

(** X6.  Putting text before and after a text can only move the result
    towards the front of the order es, fr, de, it, pt, (en, mul): the result
    for the longer text never comes after the result for the text it
    contains.  In particular a text that is "es" stays "es" in any context.
    The text and what is put before it hold no NUL byte. *)
Theorem detect_priority_in_context
    (sgn : bool) (env : JNIEnv) (h h' : jlong) (text text' : jstring)
    (pre t post : string) (w w' : World) (code code' : string) :
  delivers env text t ->
  delivers env text' (pre ++ t ++ post) ->
  nul_free pre -> nul_free t ->
  result (detect sgn env h text w) = Some code ->
  result (detect sgn env h' text' w') = Some code' ->
  (priority_rank code' <= priority_rank code)%nat /\
  (code = "es" -> code' = "es").
Proof.
  intros Hd Hd' Hp Ht Hr Hr'.
  rewrite (detect_delivered sgn env h text t w Hd) in Hr.
  rewrite (detect_delivered sgn env h' text' _ w' Hd') in Hr'.
  injection Hr as Hr. injection Hr' as Hr'.
  assert (Hle : (priority_rank code' <= priority_rank code)%nat).
  { pose proof (keyword_result_in_context sgn pre t post Hp Ht) as Hk.
    destruct (String.eqb_spec (keyword_result (normalized sgn t)) "en") as [E | E].
    - rewrite (classify_keyword_free sgn t E) in Hr.
      pose proof (priority_rank_bound code').
      destruct (accent_threshold_exceeded _ _); subst code; exact H.
    - rewrite (classify_keyword sgn t E) in Hr.
      assert (E' : keyword_result (normalized sgn (pre ++ t ++ post)) <> "en").
      { intros E'. rewrite E' in Hk.
        pose proof (keyword_result_codes (normalized sgn t)) as Hc.
        simpl in Hc.
        destruct Hc as [Hc | [Hc | [Hc | [Hc | [Hc | [Hc | []]]]]]];
          rewrite <- Hc in Hk, E; try (vm_compute in Hk; lia).
        now apply E. }
      rewrite (classify_keyword sgn _ E') in Hr'.
      now subst code code'. }
  split; [exact Hle | ].
  intros ->. apply priority_rank_es.
  change (priority_rank "es") with O in Hle. lia.
Qed.

Lemma detect_priority_in_context_witness :
  (priority_rank "es" <= priority_rank "fr")%nat.
Proof.
  apply (detect_priority_in_context true env_delivering 0 0
           (Some "le chat et le chien")
           (Some ("mira que " ++ "le chat et le chien" ++ " dort"))
           "mira que " "le chat et le chien" " dort"
           world_empty world_empty "fr" "es"
           eq_refl eq_refl eq_refl eq_refl).
  - vm_compute. reflexivity.
  - vm_compute. reflexivity.
Defined.

Module LetterFacts.

Lemma occurs_char_cons (c d : ascii) (s : string) :
  occurs (String c "") (String d s) <-> c = d \/ occurs (String c "") s.
Proof.
  rewrite occurs_cons. cbn [prefix].
  destruct (ascii_dec c d) as [-> | Hcd].
  - split; [now left | intros _; left; now destruct s].
  - split; intros [H | H]; try discriminate; try contradiction; now right.
Qed.

Lemma occurs_char_empty (c : ascii) : ~ occurs (String c "") "".
Proof. rewrite occurs_empty. discriminate. Qed.

Lemma occurs_char_c_str (c : ascii) (s : string) :
  occurs (String c "") (string_of_c_str s) -> occurs (String c "") s.
Proof.
  induction s as [ | d s IH ]; cbn [string_of_c_str]; [trivial | ].
  destruct (Ascii.eqb d zero).
  - intros H. now apply occurs_char_empty in H.
  - rewrite !occurs_char_cons. intros [H | H]; [now left | right; now apply IH].
Qed.

Lemma occurs_char_transform (sgn : bool) (c : ascii) (s : string) :
  occurs (String c "") (transform sgn tolower s) ->
  exists c0, occurs (String c0 "") s /\
             char_of_int (tolower (char_value sgn c0)) = c.
Proof.
  induction s as [ | d s IH ]; cbn [transform].
  - intros H. now apply occurs_char_empty in H.
  - rewrite occurs_char_cons. intros [H | H].
    + exists d. split; [apply occurs_char_cons; now left | now symmetry].
    + destruct (IH H) as (c0 & Ho & Hc). exists c0.
      split; [apply occurs_char_cons; now right | exact Hc].
Qed.

Lemma no_letter_occurs (c : ascii) (s : string) :
  no_letter s = true -> occurs (String c "") s -> ascii_letter c = false.
Proof.
  induction s as [ | d s IH ]; cbn [no_letter].
  - intros _ H. now apply occurs_char_empty in H.
  - rewrite andb_true_iff, negb_true_iff, occurs_char_cons.
    intros [Hd Hs] [-> | H]; [exact Hd | now apply IH].
Qed.

(** Only a letter is lower-cased to a letter. *)
Lemma tolower_letter (sgn : bool) (c : ascii) :
  ascii_letter (char_of_int (tolower (char_value sgn c))) = ascii_letter c.
Proof.
  destruct sgn; destruct c as [[] [] [] [] [] [] [] []]; vm_compute; reflexivity.
Qed.

(** Every keyword of the table begins with a letter. *)
Lemma keyword_begins_with_letter (code kw : string) (kws : list string) :
  In (code, kws) KeywordSet -> In kw kws ->
  exists (c : ascii) (rest : string), kw = String c rest /\ ascii_letter c = true.
Proof.
  intros Hin Hkw. simpl in Hin.
  repeat match goal with
         | H : _ \/ _ |- _ => destruct H
         | H : (_, _) = (_, _) |- _ => injection H as ? ?; subst
         | H : False |- _ => destruct H
         end;
    simpl in Hkw;
    repeat match goal with
           | H : _ \/ _ |- _ => destruct H
           | H : False |- _ => destruct H
           end; subst kw; eexists; eexists; split; reflexivity.
Qed.

Lemma no_letter_keyword_free (sgn : bool) (t : string) :
  no_letter t = true -> keyword_free (normalized sgn t).
Proof.
  intros Hn. apply Forall_forall. intros [code kws] Hin Hm. cbn [snd] in Hm.
  apply Exists_exists in Hm as (kw & Hkw & pre & post & Ho).
  destruct (keyword_begins_with_letter code kw kws Hin Hkw) as (c & rest & -> & Hc).
  assert (Hoc : occurs (String c "") (normalized sgn t)).
  { exists (pre ++ " "), (rest ++ " " ++ post). rewrite Ho. unfold delimited.
    cbn [append]. rewrite !append_assoc. reflexivity. }
  apply occurs_char_transform in Hoc as (c0 & Ho0 & Hc0).
  apply occurs_char_c_str in Ho0.
  pose proof (no_letter_occurs c0 t Hn Ho0) as Hl.
  rewrite <- (tolower_letter sgn), Hc0 in Hl. congruence.
Qed.

End LetterFacts.

Import LetterFacts.

(** X7.  A text without any ASCII letter (digits, punctuation, blanks,
    bytes outside ASCII) matches no keyword: [detect] returns "en" or "mul",
    and "en" when all its bytes are ASCII, as for a text of blanks only. *)
Theorem letterless_text_has_no_language
    (sgn : bool) (env : JNIEnv) (handle : jlong) (text : jstring)
    (nativeText : string) (w : World) :
  delivers env text nativeText ->
  no_letter nativeText = true ->
  keyword_free (normalized sgn nativeText) /\
  (result (detect sgn env handle text w) = Some "en" \/
   result (detect sgn env handle text w) = Some "mul") /\
  (non_ascii_count (string_of_c_str nativeText) = O ->
   result (detect sgn env handle text w) = Some "en").
Proof.
  intros Hd Hn.
  pose proof (no_letter_keyword_free sgn nativeText Hn) as Hf.
  rewrite (detect_delivered sgn env handle text nativeText w Hd).
  rewrite classify_keyword_free by (now apply keyword_free_result).
  split; [exact Hf | split].
  - destruct (accent_threshold_exceeded _ _); [now right | now left].
  - intros Hz.
    assert (Hc : non_ascii_count (normalized sgn nativeText) = O)
      by (unfold normalized; now rewrite non_ascii_count_transform).
    now rewrite (count_accents_ascii sgn _ 0 Hc), accent_test_zero.
Qed.

Lemma letterless_text_has_no_language_witness :
  result (detect true env_delivering 0 (Some "   ") world_empty) = Some "en" /\
  result (detect true env_delivering 0 (Some " 3 + 4 = 7 ") world_empty) = Some "en".
Proof.
  split.
  - apply (letterless_text_has_no_language true env_delivering 0
             (Some "   ") "   " world_empty eq_refl eq_refl).
    reflexivity.
  - apply (letterless_text_has_no_language true env_delivering 0
             (Some " 3 + 4 = 7 ") " 3 + 4 = 7 " world_empty eq_refl eq_refl).
    reflexivity.
Defined.

Module SessionFacts.

(** The world after a record has been appended by [LOGI]. *)
Lemma initialize_run (env : JNIEnv) (modelPath : jstring) (w : World) :
  initialize env modelPath w
  = match utf_chars env modelPath with
    | Some path =>
        (Some "1.2.0",
         {| logcat := (logcat w ++
                       [ {| log_priority := ANDROID_LOG_INFO; log_tag := LOG_TAG;
                            log_format := "Initializing with model path: %s";
                            log_args := [ArgString (string_of_c_str path)] |} ])%list;
            utf_buffers := utf_buffers w |})
    | None => (Some "", w)
    end.
Proof. run_native. now destruct (utf_chars env modelPath). Qed.

Lemma detect_run (sgn : bool) (env : JNIEnv) (h : jlong) (text : jstring)
    (w : World) :
  detect sgn env h text w
  = match utf_chars env text with
    | Some nativeText =>
        (Some (classify sgn nativeText),
         {| logcat := (logcat w ++
                       [ {| log_priority := ANDROID_LOG_INFO; log_tag := LOG_TAG;
                            log_format := "Detecting language for text: %s";
                            log_args := [ArgString (string_of_c_str nativeText)] |} ])%list;
            utf_buffers := utf_buffers w |})
    | None => (Some "und", w)
    end.
Proof.
  destruct (utf_chars env text) as [nativeText | ] eqn:E.
  - destruct text as [bytes | ]; [ | discriminate E].
    run_native. rewrite E.
    cbv [LOGI __android_log_print ReleaseStringUTFChars NewStringUTF ret].
    cbn [Nat.pred utf_buffers logcat].
    now rewrite (classified_code_c_str _ (classify_codes sgn nativeText)).
  - now apply detect_undelivered.
Qed.

Lemma release_run (handle : jlong) (w : World) :
  release handle w
  = if handle =? 0 then (tt, w)
    else (tt,
          {| logcat := (logcat w ++
                        [ {| log_priority := ANDROID_LOG_INFO; log_tag := LOG_TAG;
                             log_format := "Language identifier resources cleaned up for handle: %lld (Placeholder - no specific resources allocated)";
                             log_args := [ArgLongLong handle] |} ])%list;
             utf_buffers := utf_buffers w |}).
Proof. run_native. now destruct (handle =? 0). Qed.

Lemma frame_unchanged (w : World) :
  utf_buffers w = utf_buffers w /\
  exists records,
    logcat w = (logcat w ++ records)%list /\
    (List.length records <= 1)%nat /\ Forall info_record records.
Proof.
  split; [reflexivity | ]. exists []. rewrite app_nil_r.
  repeat split; [simpl; lia | constructor].
Qed.

Lemma frame_one_record (w : World) (fmt : string) (args : list LogArg) :
  let w' := {| logcat := (logcat w ++
                          [ {| log_priority := ANDROID_LOG_INFO; log_tag := LOG_TAG;
                               log_format := fmt; log_args := args |} ])%list;
               utf_buffers := utf_buffers w |} in
  utf_buffers w' = utf_buffers w /\
  exists records,
    logcat w' = (logcat w ++ records)%list /\
    (List.length records <= 1)%nat /\ Forall info_record records.
Proof.
  cbv zeta. split; [reflexivity | ]. eexists. repeat split; [simpl; lia | ].
  constructor; [split; reflexivity | constructor].
Qed.

(** One call: its result does not depend on the world, it gives back the
    buffer it takes, and it adds at most one record, written by [LOGI]. *)
Lemma run_call_frame (sgn : bool) (env : JNIEnv) (c : Call) (w : World) :
  result (run_call sgn env c w) = result (run_call sgn env c world_empty) /\
  utf_buffers (world_after (run_call sgn env c w)) = utf_buffers w /\
  exists records,
    logcat (world_after (run_call sgn env c w)) = (logcat w ++ records)%list /\
    (List.length records <= 1)%nat /\
    Forall info_record records.
Proof.
  destruct c as [modelPath | handle text | handle | ]; cbn [run_call]; unfold bind.
  - rewrite !initialize_run.
    destruct (utf_chars env modelPath); (split; [reflexivity | ]).
    + apply frame_one_record.
    + apply frame_unchanged.
  - rewrite !detect_run.
    destruct (utf_chars env text); (split; [reflexivity | ]).
    + apply frame_one_record.
    + apply frame_unchanged.
  - rewrite !release_run.
    destruct (handle =? 0); (split; [reflexivity | ]).
    + apply frame_unchanged.
    + apply frame_one_record.
  - split; [reflexivity | apply frame_unchanged].
Qed.

Lemma run_calls_cons (sgn : bool) (env : JNIEnv) (c : Call) (cs : list Call)
    (w : World) :
  run_calls sgn env (c :: cs) w
  = let (o, w1) := run_call sgn env c w in
    let (os, w2) := run_calls sgn env cs w1 in
    (o :: os, w2).
Proof.
  cbn [run_calls]. unfold bind, ret.
  destruct (run_call sgn env c w) as [o w1].
  now destruct (run_calls sgn env cs w1).
Qed.

End SessionFacts.

Import SessionFacts.

(** X8.  In a sequence of calls of the four native methods, in any order and
    from any world, every call returns what it returns when made alone: no
    call changes the result of a later one.  The sequence leaves no buffer
    out, and adds to the log at most one record per call, each written by
    [LOGI] under the tag of the library. *)
Theorem calls_are_independent
    (sgn : bool) (env : JNIEnv) (calls : list Call) (w : World) :
  result (run_calls sgn env calls w)
  = map (fun c => result (run_call sgn env c world_empty)) calls /\
  utf_buffers (world_after (run_calls sgn env calls w)) = utf_buffers w /\
  exists records,
    logcat (world_after (run_calls sgn env calls w)) = (logcat w ++ records)%list /\
    (List.length records <= List.length calls)%nat /\
    Forall info_record records.
Proof.
  revert w. induction calls as [ | c calls IH ]; intros w.
  - cbn. split; [reflexivity | split; [reflexivity | ]].
    exists []. rewrite app_nil_r.
    split; [reflexivity | split; [apply Nat.le_refl | constructor]].
  - rewrite run_calls_cons. cbn [map].
    pose proof (run_call_frame sgn env c w) as (Hr & Hb & rs & Hl & Hn & Hi).
    destruct (run_call sgn env c w) as [o w1].
    cbn [result world_after fst snd] in Hr, Hb, Hl.
    pose proof (IH w1) as (Hr' & Hb' & rs' & Hl' & Hn' & Hi').
    destruct (run_calls sgn env calls w1) as [os w2].
    cbn [result world_after fst snd] in *.
    split; [now rewrite Hr, Hr' | split; [now rewrite Hb', Hb | ]].
    exists (rs ++ rs')%list.
    split; [now rewrite Hl', Hl, app_assoc | split].
    + rewrite length_app. cbn [List.length]. lia.
    + apply Forall_app. now split.
Qed.

(* ================================================================== *)
(** * The accent counter beyond the range of [int] *)
(* ================================================================== *)

Module OverflowFacts.

Lemma string_length_app (a b : string) :
  String.length (a ++ b) = (String.length a + String.length b)%nat.
Proof. induction a as [ | c a IH ]; simpl; [reflexivity | now rewrite IH]. Qed.

Lemma non_ascii_count_app (a b : string) :
  non_ascii_count (a ++ b) = (non_ascii_count a + non_ascii_count b)%nat.
Proof.
  induction a as [ | c a IH ]; cbn [append non_ascii_count]; [reflexivity | ].
  rewrite IH. lia.
Qed.

Lemma replicate_length (n : nat) (s : string) :
  String.length (replicate n s) = (n * String.length s)%nat.
Proof.
  induction n as [ | n IH ]; cbn [replicate]; [reflexivity | ].
  rewrite string_length_app, IH. lia.
Qed.

Lemma replicate_non_ascii_count (n : nat) (s : string) :
  non_ascii_count (replicate n s) = (n * non_ascii_count s)%nat.
Proof.
  induction n as [ | n IH ]; cbn [replicate]; [reflexivity | ].
  rewrite non_ascii_count_app, IH. lia.
Qed.

(** A text all of whose bytes are outside ASCII. *)
Lemma all_non_ascii_cons (c : ascii) (s : string) :
  non_ascii_count (String c s) = String.length (String c s) ->
  (127 < N_of_ascii c)%N /\ non_ascii_count s = String.length s.
Proof.
  cbn [non_ascii_count String.length]. pose proof (non_ascii_count_le s).
  destruct (N.ltb_spec 127 (N_of_ascii c)); intros Heq; [split; lia | lia].
Qed.

Lemma all_non_ascii_c_str (s : string) :
  non_ascii_count s = String.length s -> string_of_c_str s = s.
Proof.
  induction s as [ | c s IH ]; [reflexivity | ].
  intros H. apply all_non_ascii_cons in H as [Hc Hs].
  cbn [string_of_c_str].
  destruct (Ascii.eqb_spec c zero) as [-> | _].
  - vm_compute in Hc. discriminate Hc.
  - now rewrite IH.
Qed.

Lemma all_non_ascii_transform (sgn : bool) (s : string) :
  non_ascii_count s = String.length s -> transform sgn tolower s = s.
Proof.
  induction s as [ | c s IH ]; [reflexivity | ].
  intros H. apply all_non_ascii_cons in H as [Hc Hs].
  cbn [transform]. now rewrite tolower_keeps_non_ascii, IH.
Qed.

Lemma all_non_ascii_no_space (s : string) :
  non_ascii_count s = String.length s -> ~ occurs " " s.
Proof.
  induction s as [ | c s IH ].
  - intros _ H. apply occurs_empty in H. discriminate H.
  - intros H. apply all_non_ascii_cons in H as [Hc Hs].
    rewrite occurs_cons, prefix_space. intros [-> | Ho].
    + vm_compute in Hc. discriminate Hc.
    + now apply IH.
Qed.

(** Counting one more on a wrapped counter. *)
Lemma int_wrap_succ (z : Z) : int_wrap (int_wrap z + 1) = int_wrap (z + 1).
Proof.
  unfold int_wrap. f_equal.
  replace ((z + 2 ^ 31) mod 2 ^ 32 - 2 ^ 31 + 1 + 2 ^ 31)
    with ((z + 2 ^ 31) mod 2 ^ 32 + 1) by lia.
  replace (z + 1 + 2 ^ 31) with ((z + 2 ^ 31) + 1) by lia.
  now rewrite Zplus_mod_idemp_l.
Qed.

(** On such a text the counter is the length, wrapped to 32 bits. *)
Lemma count_accents_all_non_ascii (sgn : bool) (s : string) :
  non_ascii_count s = String.length s ->
  forall z : Z,
    count_accents sgn s (int_wrap z)
    = int_wrap (z + Z.of_nat (String.length s)).
Proof.
  induction s as [ | c s IH ]; intros H z.
  - cbn [count_accents String.length]. now rewrite Z.add_0_r.
  - apply all_non_ascii_cons in H as [Hc Hs].
    cbn [count_accents]. rewrite non_ascii_test.
    apply N.ltb_lt in Hc. rewrite Hc.
    rewrite int_wrap_succ, (IH Hs).
    f_equal. cbn [String.length]. lia.
Qed.

(** With 2147483649 bytes counted the [int] counter stands at -2147483647,
    and the test against a tenth of the length fails. *)
Lemma accent_test_wrapped :
  double_gt (double_of_Z (int_wrap 2147483649))
            (double_mul (double_of_Z 2147483649) double_0_1) = false.
Proof. vm_compute. reflexivity. Qed.

Lemma classify_wrapped (sgn : bool) (txt : string) :
  non_ascii_count txt = String.length txt ->
  Z.of_nat (String.length txt) = 2147483649 ->
  normalized sgn txt = txt /\
  keyword_free txt /\
  classify sgn txt = "en".
Proof.
  intros Hall Hlen.
  assert (Hn : normalized sgn txt = txt).
  { unfold normalized. rewrite (all_non_ascii_c_str txt Hall).
    now apply all_non_ascii_transform. }
  assert (Hf : keyword_free txt).
  { apply Forall_forall. intros entry _ Hm.
    apply Exists_exists in Hm as (kw & _ & Hk).
    apply (all_non_ascii_no_space txt Hall).
    exact (occurs_delimited_space kw txt Hk). }
  split; [exact Hn | split; [exact Hf | ]].
  rewrite classify_keyword_free by (rewrite Hn; now apply keyword_free_result).
  rewrite Hn.
  change 0 with (int_wrap 0) at 1.
  rewrite (count_accents_all_non_ascii sgn txt Hall 0).
  unfold accent_threshold_exceeded.
  rewrite Z.add_0_l, Hlen, accent_test_wrapped. reflexivity.
Qed.

Lemma overlong_accented_length :
  Z.of_nat (String.length overlong_accented) = 2147483649 /\
  non_ascii_count overlong_accented = String.length overlong_accented.
Proof.
  unfold overlong_accented.
  rewrite replicate_length, replicate_non_ascii_count.
  change (String.length euro_sign) with 3%nat.
  change (non_ascii_count euro_sign) with 3%nat.
  split; [ | reflexivity].
  rewrite Nat2Z.inj_mul, Z2Nat.id by lia. reflexivity.
Qed.

End OverflowFacts.

Import OverflowFacts.

(** C3.  The claim holds for texts of fewer than [2^31] bytes
    ([detect_fallback_mul_or_en]) and fails beyond: on the 2147483649 bytes
    of 715827883 euro signs no keyword matches and every byte is outside
    ASCII, far more than a tenth, yet [detect] returns "en" and not "mul",
    for signed and unsigned [char]: the [int] counter has wrapped to a
    negative number. *)
Theorem detect_accent_counter_overflow (sgn : bool) :
  Z.of_nat (String.length (normalized sgn overlong_accented)) = 2147483649 /\
  Z.of_nat (non_ascii_count (normalized sgn overlong_accented)) = 2147483649 /\
  keyword_free (normalized sgn overlong_accented) /\
  count_accents sgn (normalized sgn overlong_accented) 0 = -2147483647 /\
  result (detect sgn env_delivering 0 (Some overlong_accented) world_empty)
  = Some "en".
Proof.
  destruct overlong_accented_length as [Hlen Hall].
  destruct (classify_wrapped sgn overlong_accented Hall Hlen) as (Hn & Hf & Hc).
  rewrite Hn.
  split; [exact Hlen | split; [now rewrite Hall | split; [exact Hf | split]]].
  - change 0 with (int_wrap 0) at 1.
    rewrite (count_accents_all_non_ascii sgn _ Hall 0), Z.add_0_l, Hlen.
    reflexivity.
  - rewrite (detect_delivered sgn env_delivering 0 (Some overlong_accented)
               overlong_accented world_empty eq_refl).
    now rewrite Hc.
Qed.
